(** * TileStache.Memcache: tile keys and the memcache-backed tile cache

    A shallow embedding of [TileStache/Memcache.py]: the pure key deriver
    [tile_key] and the five operations of [Cache] ([lock], [unlock],
    [remove], [read], [save]) over an explicit model of the memcache
    client, the wall clock and the open client sessions. *)

From Stdlib Require Import Ascii.
From stdpp Require Import gmap strings list sorting pretty.

Open Scope Z_scope.

(** ** Python values used by the module *)

(** [auth] is a collection of identifiers; Python only asks of them that
    they can be compared with [<] (by [sorted]) and rendered (by [str]). *)
Class AuthId (A : Type) := {
  id_lt : A → A → bool;
  id_str : A → string
}.

(** The law Python's built-in identifiers (integers, strings) obey:
    [<] is a strict total order. *)
Class AuthIdOrder (A : Type) `{AuthId A} := {
  id_lt_irrefl : ∀ x : A, id_lt x x = false;
  id_lt_trans : ∀ x y z : A, id_lt x y = true → id_lt y z = true → id_lt x z = true;
  id_lt_trichotomy : ∀ x y : A, id_lt x y = true ∨ x = y ∨ id_lt y x = true
}.

(** Integer identifiers: [<] on integers, [str] is the decimal numeral. *)
#[global] Instance int_AuthId : AuthId Z := {|
  id_lt := Z.ltb;
  id_str := pretty
|}.

(** String identifiers: lexicographic [<], [str] is the identity. *)
#[global] Instance str_AuthId : AuthId string := {|
  id_lt := String.ltb;
  id_str := λ s, s
|}.

(** Identifiers of both kinds in one collection, as Python 2 compares
    them: every integer is below every string. *)
Inductive PyId :=
  | PInt (n : Z)
  | PStr (s : string).

#[global] Instance py_AuthId : AuthId PyId := {|
  id_lt := λ x y,
    match x, y with
    | PInt m, PInt n => Z.ltb m n
    | PInt _, PStr _ => true
    | PStr _, PInt _ => false
    | PStr s, PStr t => String.ltb s t
    end;
  id_str := λ x, match x with PInt n => pretty n | PStr s => s end
|}.

(** ** The key deriver *)

Record Layer := {
  layer_name : string;           (* layer.name() *)
  stale_lock_timeout : Z;        (* layer.stale_lock_timeout *)
  cache_lifespan : option Z      (* layer.cache_lifespan, None when unset *)
}.

Record Coord := {
  zoom : Z;
  column : Z;
  row : Z
}.

(** ['%d' % n] and ['%s' % n] on an integer: the decimal numeral, with a
    leading [-] for negative numbers. *)
Definition pct_d (n : Z) : string := pretty n.

(** ["/".join(l)] *)
Fixpoint join (sep : string) (l : list string) : string :=
  match l with
  | [] => ""
  | [x] => x
  | x :: rest => x +:+ sep +:+ join sep rest
  end.

Section tile_key.
Context {A : Type} `{AuthId A}.

(** The relation [sorted] orders by: y is not below x.  Python's sort
    takes an element from the right run only when it is strictly
    smaller, which is what [list_merge] does with this relation. *)
Definition not_gt (x y : A) : Prop := id_lt y x = false.

#[global] Instance not_gt_dec : RelDecision not_gt.
Proof. intros x y. unfold not_gt. apply _. Defined.

(** [sorted(auth)] *)
Definition sorted (auth : list A) : list A := merge_sort not_gt auth.

(** [if auth:] on a collection: true when it is not empty. *)
Definition truthy (auth : list A) : bool :=
  match auth with [] => false | _ :: _ => true end.

Definition tile_key (layer : Layer) (coord : Coord) (auth : list A)
    (format : string) (rev : Z) (key_prefix : string) : string :=
  let name := layer_name layer in
  let tile := pct_d (zoom coord) +:+ "/" +:+ pct_d (column coord)
                +:+ "/" +:+ pct_d (row coord) in
  if truthy auth then
    let ids := join "/" (id_str <$> sorted auth) in
    key_prefix +:+ "/" +:+ pct_d rev +:+ "/" +:+ name +:+ "/" +:+ tile
      +:+ "/" +:+ ids +:+ "." +:+ format
  else
    key_prefix +:+ "/" +:+ pct_d rev +:+ "/" +:+ name +:+ "/" +:+ tile
      +:+ "." +:+ format.
End tile_key.

(** ** The world the cache runs in

    Time is counted in milliseconds, so that the [.2] second poll interval
    of [lock] is the integer [200]; a layer's [stale_lock_timeout] and
    [cache_lifespan] are in the same unit. *)

Record Entry := {
  e_value : string;
  e_expires : option Z          (* None: no expiry *)
}.

(** A command another client of the same memcache server issues. *)
Inductive Cmd :=
  | CAdd (key value : string) (ttl : Z)
  | CSet (key value : string) (ttl : Z)
  | CDelete (key : string).

(** What this client did, in the order it did it; store calls carry the
    clock reading at which they were issued. *)
Inductive Event :=
  | Opened
  | Closed
  | Added (key : string) (at_time : Z) (created : bool)
  | Stored (key : string) (at_time : Z)
  | Fetched (key : string) (at_time : Z)
  | Deleted (key : string) (at_time : Z)
  | Failed (key : string) (at_time : Z).

Record World := {
  now : Z;                      (* what time() reads *)
  store : gmap string Entry;    (* the memcache server's entries *)
  sessions : nat;               (* client sessions open and not yet disconnected *)
  latency : N;                  (* how long one store call takes *)
  faults : list bool;           (* per store call to come: does it raise? *)
  others : list (list Cmd);     (* per sleep to come: what other clients do meanwhile *)
  trace : list Event
}.

Definition set_now (t : Z) (w : World) : World :=
  {| now := t; store := store w; sessions := sessions w; latency := latency w;
     faults := faults w; others := others w; trace := trace w |}.
Definition set_store (st : gmap string Entry) (w : World) : World :=
  {| now := now w; store := st; sessions := sessions w; latency := latency w;
     faults := faults w; others := others w; trace := trace w |}.
Definition set_sessions (n : nat) (w : World) : World :=
  {| now := now w; store := store w; sessions := n; latency := latency w;
     faults := faults w; others := others w; trace := trace w |}.
Definition set_faults (fs : list bool) (w : World) : World :=
  {| now := now w; store := store w; sessions := sessions w; latency := latency w;
     faults := fs; others := others w; trace := trace w |}.
Definition set_others (os : list (list Cmd)) (w : World) : World :=
  {| now := now w; store := store w; sessions := sessions w; latency := latency w;
     faults := faults w; others := os; trace := trace w |}.
Definition log (e : Event) (w : World) : World :=
  {| now := now w; store := store w; sessions := sessions w; latency := latency w;
     faults := faults w; others := others w; trace := trace w ++ [e] |}.

(** ** The memcache server

    The server and its client library ([memcache.Client]) are not part of
    this repository; its four primitives follow the dependency contract
    of the specification (section 6). *)

(** Modelled from the spec: an entry with a time to live is gone once the
    clock reaches its expiry; the body of memcache's expiry is missing. *)
Definition live (t : Z) (e : Entry) : bool :=
  match e_expires e with
  | None => true
  | Some x => bool_decide (t < x)
  end.

(** Modelled from the spec: a time to live of 0 means no expiry; the
    server's handling of the ttl argument is missing. *)
Definition expiry (t ttl : Z) : option Z :=
  if decide (ttl = 0) then None else Some (t + ttl).

(** Modelled from the spec: [get(key) -> value | absent], absent for a
    key that does not exist or has expired; memcache's [get] is missing. *)
Definition store_get (t : Z) (key : string) (st : gmap string Entry) : option string :=
  match st !! key with
  | Some e => if live t e then Some (e_value e) else None
  | None => None
  end.

(** Modelled from the spec: [set(key, value, ttl)], an unconditional
    overwrite with a time to live; memcache's [set] is missing. *)
Definition store_set (t : Z) (key value : string) (ttl : Z)
    (st : gmap string Entry) : gmap string Entry :=
  <[key := {| e_value := value; e_expires := expiry t ttl |}]> st.

(** Modelled from the spec: [atomic_add(key, value, ttl) -> bool], which
    creates the entry only if the key is absent and answers whether it
    did; memcache's [add] is missing. *)
Definition store_add (t : Z) (key value : string) (ttl : Z)
    (st : gmap string Entry) : bool * gmap string Entry :=
  match store_get t key st with
  | Some _ => (false, st)
  | None => (true, store_set t key value ttl st)
  end.

(** Modelled from the spec: [delete(key)], which does nothing on an
    absent key; memcache's [delete] is missing. *)
Definition store_delete (key : string) (st : gmap string Entry) : gmap string Entry :=
  delete key st.

Definition run_cmd (t : Z) (c : Cmd) (st : gmap string Entry) : gmap string Entry :=
  match c with
  | CAdd k v ttl => snd (store_add t k v ttl st)
  | CSet k v ttl => store_set t k v ttl st
  | CDelete k => store_delete k st
  end.

Definition run_cmds (t : Z) (cs : list Cmd) (st : gmap string Entry) : gmap string Entry :=
  foldl (λ st c, run_cmd t c st) st cs.

(** ** Computations: state passing with Python exceptions *)

Inductive Exn := StoreError.

Inductive Result (R : Type) :=
  | Ok (r : R)
  | Raise (e : Exn)
  | OutOfFuel.
Arguments Ok {R} r.
Arguments Raise {R} e.
Arguments OutOfFuel {R}.

Definition M (R : Type) : Type := World → Result R * World.

Definition ret {R} (r : R) : M R := λ w, (Ok r, w).

Definition bind {R S} (m : M R) (k : R → M S) : M S := λ w,
  match m w with
  | (Ok r, w') => k r w'
  | (Raise e, w') => (Raise e, w')
  | (OutOfFuel, w') => (OutOfFuel, w')
  end.

#[global] Instance M_ret : MRet M := @ret.
#[global] Instance M_bind : MBind M := λ R S k m, bind m k.

(** [try: body finally: fin]: [fin] runs whether [body] returned or
    raised, and the outcome of [body] stands unless [fin] itself raises. *)
Definition try_finally {R} (body : M R) (fin : M unit) : M R := λ w,
  match body w with
  | (OutOfFuel, w') => (OutOfFuel, w')
  | (r, w') =>
      match fin w' with
      | (Ok _, w'') => (r, w'')
      | (Raise e, w'') => (Raise e, w'')
      | (OutOfFuel, w'') => (OutOfFuel, w'')
      end
  end.

(** [time()] and [sleep(d)]: sleeping moves the clock on by [d]; other
    clients of the server act meanwhile. *)
Definition _time : M Z := λ w, (Ok (now w), w).

Definition _sleep (d : Z) : M unit := λ w,
  let t := now w + d in
  (Ok tt, set_others (tail (others w))
            (set_store (run_cmds t (default [] (head (others w))) (store w))
               (set_now t w))).

(** Modelled from the spec: [Client(servers)] opens a session to the
    configured servers and [mem.disconnect_all()] releases it; the client
    library is missing. *)
Definition Client (servers : list string) : M unit := λ w,
  (Ok tt, log Opened (set_sessions (S (sessions w)) w)).

Definition disconnect_all : M unit := λ w,
  (Ok tt, log Closed (set_sessions (pred (sessions w)) w)).

(** One call to the server: it takes [latency], and either raises, when
    the next fault bit says so, or is served at its arrival time. *)
Definition call {R} (key : string)
    (serve : Z → gmap string Entry → R * gmap string Entry)
    (event : Z → R → Event) : M R := λ w,
  let t := now w in
  let arrival := t + Z.of_N (latency w) in
  let w1 := set_faults (tail (faults w)) (set_now arrival w) in
  match faults w with
  | true :: _ => (Raise StoreError, log (Failed key t) w1)
  | _ =>
      let (r, st) := serve arrival (store w) in
      (Ok r, log (event t r) (set_store st w1))
  end.

Definition mem_add (key value : string) (ttl : Z) : M bool :=
  call key (λ t st, store_add t key value ttl st) (λ t r, Added key t r).

Definition mem_set (key value : string) (ttl : Z) : M unit :=
  call key (λ t st, (tt, store_set t key value ttl st)) (λ t _, Stored key t).

Definition mem_get (key : string) : M (option string) :=
  call key (λ t st, (store_get t key st, st)) (λ t _, Fetched key t).

Definition mem_delete (key : string) : M unit :=
  call key (λ t st, (tt, store_delete key st)) (λ t _, Deleted key t).

(** Time passes and nothing else happens. *)
Definition elapse (d : N) (w : World) : World := set_now (now w + Z.of_N d) w.

(** ** The cache *)

Record Cache := {
  servers : list string;
  revision : Z;
  key_prefix : string
}.

(** The poll interval of [lock], [.2] seconds. *)
Definition POLL : Z := 200.

(** [x or 0] on an optional number *)
Definition or0 (x : option Z) : Z :=
  match x with
  | Some n => if decide (n = 0) then 0 else n
  | None => 0
  end.

Section cache.
Context {A : Type} `{AuthId A}.

(** The body of the [try] block of [lock]: the polling loop, its early
    [return] and the set that follows the loop.  [fuel] bounds the
    number of times the loop condition is evaluated. *)
Fixpoint lock_try (fuel : nat) (key : string) (due timeout : Z) : M unit :=
  match fuel with
  | O => λ w, (OutOfFuel, w)
  | S fuel' =>
      t ← _time;
      if bool_decide (t < due) then
        created ← mem_add (key +:+ "-lock") "locked." timeout;
        if (created : bool) then ret tt
        else _sleep POLL ;; lock_try fuel' key due timeout
      else
        mem_set (key +:+ "-lock") "locked." timeout
  end.

Definition lock (fuel : nat) (self : Cache) (layer : Layer) (coord : Coord)
    (auth : list A) (format : string) : M unit :=
  Client (servers self) ;;
  let key := tile_key layer coord auth format (revision self) (key_prefix self) in
  t ← _time;
  let due := t + stale_lock_timeout layer in
  try_finally (lock_try fuel key due (stale_lock_timeout layer)) disconnect_all.

Definition unlock (self : Cache) (layer : Layer) (coord : Coord)
    (auth : list A) (format : string) : M unit :=
  Client (servers self) ;;
  let key := tile_key layer coord auth format (revision self) (key_prefix self) in
  mem_delete (key +:+ "-lock") ;;
  disconnect_all.

Definition remove (self : Cache) (layer : Layer) (coord : Coord)
    (auth : list A) (format : string) : M unit :=
  Client (servers self) ;;
  let key := tile_key layer coord auth format (revision self) (key_prefix self) in
  mem_delete key ;;
  disconnect_all.

Definition read (self : Cache) (layer : Layer) (coord : Coord)
    (auth : list A) (format : string) : M (option string) :=
  Client (servers self) ;;
  let key := tile_key layer coord auth format (revision self) (key_prefix self) in
  value ← mem_get key;
  disconnect_all ;;
  ret value.

Definition save (body : string) (self : Cache) (layer : Layer) (coord : Coord)
    (auth : list A) (format : string) : M unit :=
  Client (servers self) ;;
  let key := tile_key layer coord auth format (revision self) (key_prefix self) in
  mem_set key body (or0 (cache_lifespan layer)) ;;
  disconnect_all.
End cache.

(** Fuel that lets the loop of [lock] run to its end: the clock moves on
    by at least [POLL] per round. *)
Definition lock_fuel (timeout : Z) : nat := Z.to_nat (timeout / POLL) + 2.

(** ** The key format of the specification

    [{key_prefix}/{revision}/{layer_name}/{zoom}/{column}/{row}]
    [[/{sorted auth_ids joined by "/"}].{format}], written after the
    specification's words, to be compared with [tile_key]. *)

Definition auth_segment {A} `{AuthId A} (auth : list A) : string :=
  match auth with
  | [] => ""
  | _ :: _ => "/" +:+ join "/" (id_str <$> sorted auth)
  end.

Definition key_format {A} `{AuthId A} (key_prefix : string) (revision : Z)
    (layer_name : string) (zoom column row : Z) (auth : list A)
    (format : string) : string :=
  key_prefix +:+ "/" +:+ pct_d revision +:+ "/" +:+ layer_name
    +:+ "/" +:+ pct_d zoom +:+ "/" +:+ pct_d column +:+ "/" +:+ pct_d row
    +:+ auth_segment auth +:+ "." +:+ format.

(** Two tile identities are the same when they agree on layer name, zoom,
    column, row, format and on which identifiers [auth] holds. *)
Definition same_identity {A} (l1 : Layer) (c1 : Coord) (a1 : list A) (f1 : string)
    (l2 : Layer) (c2 : Coord) (a2 : list A) (f2 : string) : Prop :=
  layer_name l1 = layer_name l2 ∧ zoom c1 = zoom c2 ∧ column c1 = column c2
  ∧ row c1 = row c2 ∧ f1 = f2 ∧ (∀ x, x ∈ a1 ↔ x ∈ a2).

(** Character classes of a key: the segment separator, and the two
    characters that end a segment. *)
Definition is_slash (c : ascii) : bool := Ascii.eqb c "/".
Definition is_sep (c : ascii) : bool := Ascii.eqb c "/" || Ascii.eqb c ".".

(** No character of [s] is in the class [bad]. *)
Fixpoint free_of (bad : ascii → bool) (s : string) : bool :=
  match s with
  | "" => true
  | String c s' => negb (bad c) && free_of bad s'
  end.

(** ** The runs of the polling loop

    What [lock_try] may log, and the outcome that goes with it: failed
    attempts to create the entry, each issued before the deadline, closed
    by a successful creation before the deadline, by the unconditional
    set at or after the deadline, or by a store call that raised. *)
Inductive poll_trace (key : string) (due : Z) : Result unit → list Event → Prop :=
  | poll_created t :
      t < due → poll_trace key due (Ok tt) [Added key t true]
  | poll_stolen t :
      due ≤ t → poll_trace key due (Ok tt) [Stored key t]
  | poll_raised t :
      poll_trace key due (Raise StoreError) [Failed key t]
  | poll_out_of_fuel :
      poll_trace key due OutOfFuel []
  | poll_again t r evs :
      t < due → poll_trace key due r evs →
      poll_trace key due r (Added key t false :: evs).

(** ** Sample data *)

Definition sample_cache : Cache :=
  {| servers := ["127.0.0.1:11211"]; revision := 0; key_prefix := "p" |}.

Definition sample_layer (timeout : Z) : Layer :=
  {| layer_name := "osm"; stale_lock_timeout := timeout; cache_lifespan := Some 60000 |}.

Definition sample_coord : Coord := {| zoom := 1; column := 2; row := 3 |}.

(** A server on which somebody holds the lock of the sample tile, for good. *)
Definition held_store : gmap string Entry :=
  {[ "p/0/osm/1/2/3.png-lock" := {| e_value := "locked."; e_expires := None |} ]}.

Definition sample_world (st : gmap string Entry) (lat : N) (fs : list bool)
    (os : list (list Cmd)) : World :=
  {| now := 0; store := st; sessions := 0; latency := lat; faults := fs;
     others := os; trace := [] |}.

(** ** Construction and observers used by further properties *)

(** [Cache.__init__]: each argument may be left out and then takes its
    default. *)
Definition __init__ (servers : option (list string)) (revision : option Z)
    (key_prefix : option string) : Cache :=
  {| servers := default ["127.0.0.1:11211"] servers;
     revision := default 0 revision;
     key_prefix := default "" key_prefix |}.

(** An entry that stays there until the clock reads [t], and possibly
    longer. *)
Definition live_through (t : Z) (e : Entry) : Prop :=
  match e_expires e with
  | None => True
  | Some x => t ≤ x
  end.

(** * Properties *)

(** ** Sample keys *)

Example tile_key_plain :
  tile_key {| layer_name := "osm"; stale_lock_timeout := 15; cache_lifespan := None |}
           {| zoom := 12; column := 656; row := 1582 |} ([] : list Z) "png" 0 "pfx"
  = "pfx/0/osm/12/656/1582.png".
Proof. vm_compute. reflexivity. Qed.

Example tile_key_auth :
  tile_key {| layer_name := "osm"; stale_lock_timeout := 15; cache_lifespan := None |}
           {| zoom := 12; column := 656; row := 1582 |} [30; -4; 7] "png" 3 ""
  = "/3/osm/12/656/1582/-4/7/30.png".
Proof. vm_compute. reflexivity. Qed.

Example tile_key_auth_str :
  tile_key {| layer_name := "osm"; stale_lock_timeout := 15; cache_lifespan := None |}
           {| zoom := 1; column := 0; row := 1 |} ["bob"; "alice"] "json" 3 "k"
  = "k/3/osm/1/0/1/alice/bob.json".
Proof. vm_compute. reflexivity. Qed.

(** ** Strings *)

Lemma app_nil_str (s : string) : "" +:+ s = s.
Proof. reflexivity. Qed.

Lemma app_cons_str (c : ascii) (s t : string) : String c s +:+ t = String c (s +:+ t).
Proof. reflexivity. Qed.

Tactic Notation "norm_app" := rewrite ?app_cons_str, ?app_nil_str.
Tactic Notation "norm_app" "in" hyp(H) := rewrite ?app_cons_str, ?app_nil_str in H.

Lemma app_assoc_str (s1 s2 s3 : string) : (s1 +:+ s2) +:+ s3 = s1 +:+ (s2 +:+ s3).
Proof. induction s1 as [|c s1 IH]; norm_app; [done|]. by rewrite IH. Qed.

Lemma free_of_app bad (s1 s2 : string) :
  free_of bad (s1 +:+ s2) = free_of bad s1 && free_of bad s2.
Proof.
  induction s1 as [|c s1 IH]; norm_app; simpl; [done|].
  rewrite IH. by rewrite andb_assoc.
Qed.

Lemma free_of_weaken (bad bad' : ascii → bool) (s : string) :
  (∀ c, bad' c = true → bad c = true) →
  free_of bad s = true → free_of bad' s = true.
Proof.
  intros Hsub. induction s as [|c s IH]; simpl; [done|].
  intros [Hc Hs]%andb_prop. rewrite (IH Hs), andb_true_r.
  destruct (bad' c) eqn:Hb; [|done].
  apply Hsub in Hb. by rewrite Hb in Hc.
Qed.

Lemma is_sep_slash c : is_slash c = true → is_sep c = true.
Proof. unfold is_slash, is_sep. by intros ->. Qed.

(** A string that starts with a segment free of [bad] characters followed
    by a [bad] character splits there in one way only. *)
Lemma split_at_bad bad (s1 s2 : string) (c1 c2 : ascii) (t1 t2 : string) :
  free_of bad s1 = true → free_of bad s2 = true →
  bad c1 = true → bad c2 = true →
  s1 +:+ String c1 t1 = s2 +:+ String c2 t2 →
  s1 = s2 ∧ c1 = c2 ∧ t1 = t2.
Proof.
  revert s2. induction s1 as [|a s1 IH]; intros [|b s2]; norm_app; simpl;
    intros H1 H2 Hc1 Hc2 Heq.
  - by simplify_eq.
  - simplify_eq. by rewrite Hc1 in H2.
  - simplify_eq. by rewrite Hc2 in H1.
  - apply andb_prop in H1 as [_ H1]. apply andb_prop in H2 as [_ H2].
    simplify_eq. destruct (IH s2 H1 H2 Hc1 Hc2) as (-> & -> & ->); done.
Qed.

(** ** Decimal numerals hold digits and a sign only *)

Lemma pretty_N_char_not_sep x : is_sep (pretty_N_char x) = false.
Proof. unfold pretty_N_char. by repeat case_match. Qed.

Lemma pretty_N_go_free x s :
  free_of is_sep s = true → free_of is_sep (pretty_N_go x s) = true.
Proof.
  revert s. induction (N.lt_wf_0 x) as [x _ IH]; intros s Hs.
  assert (x = 0 ∨ 0 < x)%N as [->|?] by lia.
  - by rewrite pretty_N_go_0.
  - rewrite pretty_N_go_step by done. apply IH.
    + by apply N.div_lt.
    + simpl. by rewrite pretty_N_char_not_sep, Hs.
Qed.

Lemma pretty_N_free (x : N) : free_of is_sep (pretty x) = true.
Proof.
  unfold pretty, pretty_N. case_decide; [done|]. by apply pretty_N_go_free.
Qed.

Lemma pct_d_free (n : Z) : free_of is_sep (pct_d n) = true.
Proof.
  unfold pct_d, pretty, pretty_Z. destruct n as [|p|p].
  - done.
  - apply pretty_N_free.
  - change (free_of is_sep (String "-" (pretty (Npos p))) = true).
    simpl. apply pretty_N_free.
Qed.

Lemma pct_d_slash_free (n : Z) : free_of is_slash (pct_d n) = true.
Proof. eapply free_of_weaken, pct_d_free. apply is_sep_slash. Qed.

Lemma pct_d_inj (m n : Z) : pct_d m = pct_d n → m = n.
Proof. unfold pct_d. apply (inj pretty). Qed.

(** ** Identifiers of Python's built-in types obey the laws *)

#[global] Instance int_AuthIdOrder : AuthIdOrder Z.
Proof.
  split; simpl.
  - intros x. apply Z.ltb_irrefl.
  - intros x y z ?%Z.ltb_lt ?%Z.ltb_lt. apply Z.ltb_lt. lia.
  - intros x y. rewrite !Z.ltb_lt. lia.
Qed.

Lemma str_ltb_leb (s1 s2 : string) :
  String.ltb s1 s2 = true ↔ String.leb s1 s2 = true ∧ s1 ≠ s2.
Proof.
  unfold String.ltb, String.leb.
  destruct (String.compare s1 s2) eqn:Hc.
  - apply String.compare_eq_iff in Hc. split; [done|].
    intros [_ Hne]. by destruct Hne.
  - split; [|done]. intros _. split; [done|]. intros ->.
    pose proof (String.compare_antisym s2 s2) as Hanti.
    rewrite Hc in Hanti. discriminate.
  - split; [done|]. by intros [? _].
Qed.

#[global] Instance str_AuthIdOrder : AuthIdOrder string.
Proof.
  split; simpl.
  - intros x. destruct (String.ltb x x) eqn:Hx; [|done].
    apply str_ltb_leb in Hx as [_ Hne]. by destruct Hne.
  - intros x y z [Hxy Hne1]%str_ltb_leb [Hyz Hne2]%str_ltb_leb.
    apply str_ltb_leb. split.
    + apply Is_true_true. apply Is_true_true in Hxy, Hyz.
      exact (transitivity (R:=String.le) Hxy Hyz).
    + intros ->. apply Hne1. apply String.leb_antisym; done.
  - intros x y. destruct (decide (x = y)) as [->|Hne]; [by auto|].
    destruct (String.leb_total x y) as [Hle|Hle].
    + left. by apply str_ltb_leb.
    + right; right. apply str_ltb_leb. split; [done|]. congruence.
Qed.

(** ** [sorted] *)

Lemma sorted_Permutation {A} `{AuthId A} (auth : list A) : sorted auth ≡ₚ auth.
Proof. apply merge_sort_Permutation. Qed.

Lemma sorted_nil_inv {A} `{AuthId A} (auth : list A) : sorted auth = [] → auth = [].
Proof.
  intros Hs. apply Permutation_nil_r. by rewrite <-Hs, sorted_Permutation.
Qed.

Section sorted_facts.
Context {A : Type} `{AuthIdOrder A}.

#[local] Instance not_gt_total : Total (not_gt (A:=A)).
Proof.
  intros x y. unfold not_gt.
  destruct (id_lt y x) eqn:Hyx; [|by left]. right.
  destruct (id_lt x y) eqn:Hxy; [|done].
  by rewrite <-(id_lt_irrefl x), (id_lt_trans x y x).
Qed.

#[local] Instance not_gt_trans : Transitive (not_gt (A:=A)).
Proof.
  intros x y z. unfold not_gt. intros Hyx Hzy.
  destruct (id_lt z x) eqn:Hzx; [|done].
  destruct (id_lt_trichotomy x y) as [Hxy|[->|Hxy]].
  - by rewrite <-Hzy, (id_lt_trans z x y).
  - congruence.
  - congruence.
Qed.

#[local] Instance not_gt_antisymm : AntiSymm (=) (not_gt (A:=A)).
Proof.
  intros x y. unfold not_gt. intros Hyx Hxy.
  destruct (id_lt_trichotomy x y) as [?|[->|?]]; congruence.
Qed.

(** What [sorted] returns depends on the members only, not on the order
    they come in. *)
Lemma sorted_perm (a1 a2 : list A) : a1 ≡ₚ a2 → sorted a1 = sorted a2.
Proof.
  intros Hp. apply (Sorted_unique not_gt).
  - apply Sorted_merge_sort, _.
  - apply Sorted_merge_sort, _.
  - by rewrite !sorted_Permutation.
Qed.

End sorted_facts.

(** ** The shape of a key *)

Lemma tile_key_shape {A} `{AuthId A} (layer : Layer) (coord : Coord)
    (auth : list A) (format : string) (rev : Z) (key_prefix : string) :
  tile_key layer coord auth format rev key_prefix
  = key_format key_prefix rev (layer_name layer)
      (zoom coord) (column coord) (row coord) auth format.
Proof.
  unfold tile_key, key_format, auth_segment.
  destruct auth as [|x auth]; simpl truthy; cbv iota; cbv zeta;
    rewrite !app_assoc_str; norm_app; reflexivity.
Qed.

Lemma auth_segment_empty {A} `{AuthId A} (auth : list A) :
  auth_segment auth = "" ↔ auth = [].
Proof.
  unfold auth_segment. destruct auth as [|x auth]; [done|].
  norm_app. split; discriminate.
Qed.

(** [sorted] returns its argument rearranged in ascending order: no
    element is below one that comes before it. *)
Lemma sorted_ascending {A} `{AuthIdOrder A} (auth : list A) :
  StronglySorted (λ x y, id_lt y x = false) (sorted auth).
Proof.
  apply (StronglySorted_merge_sort not_gt (Transitive0:=not_gt_trans)
           (Total0:=not_gt_total)).
Qed.

(** [join] is the library's concatenation with a separator. *)
Lemma join_concat (sep : string) (l : list string) :
  join sep l = String.concat sep l.
Proof.
  induction l as [|x l IH]; [done|].
  destruct l as [|y l]; [done|].
  change (join sep (x :: y :: l)) with (x +:+ sep +:+ join sep (y :: l)).
  change (String.concat sep (x :: y :: l))
    with (x +:+ sep +:+ String.concat sep (y :: l)).
  by rewrite IH.
Qed.

(** C1: the derived key is
    [{key_prefix}/{revision}/{layer_name}/{zoom}/{column}/{row}], the
    numbers as decimal numerals, followed by nothing when [auth] is empty
    and otherwise by [/] and the renderings of the auth ids, arranged in
    ascending order and joined by [/], followed by [.{format}].  The ids
    of the key are given by what they are, a rearrangement of [auth] in
    which no id is below an earlier one, and the joining by the library's
    [String.concat], not by the functions [tile_key] calls. *)
Theorem tile_key_format {A} `{AuthIdOrder A} (self : Cache) (layer : Layer)
    (coord : Coord) (auth : list A) (format : string) :
  ∃ ids : list A,
    ids ≡ₚ auth
    ∧ StronglySorted (λ x y, id_lt y x = false) ids
    ∧ tile_key layer coord auth format (revision self) (key_prefix self)
      = key_prefix self +:+ "/" +:+ pretty (revision self)
          +:+ "/" +:+ layer_name layer
          +:+ "/" +:+ pretty (zoom coord) +:+ "/" +:+ pretty (column coord)
          +:+ "/" +:+ pretty (row coord)
          +:+ (if decide (auth = []) then ""
               else "/" +:+ String.concat "/" (id_str <$> ids))
          +:+ "." +:+ format.
Proof.
  exists (sorted auth). split; [apply sorted_Permutation|].
  split; [apply sorted_ascending|].
  rewrite tile_key_shape. unfold key_format, auth_segment, pct_d.
  destruct auth as [|x auth]; case_decide; try done.
  all: by rewrite ?(join_concat "/" (id_str <$> sorted (x :: auth))).
Qed.

Lemma tile_key_format_witness :
  ∃ ids : list Z,
    ids ≡ₚ [30; -4; 7]
    ∧ StronglySorted (λ x y, id_lt y x = false) ids
    ∧ tile_key (sample_layer 15) sample_coord [30; -4; 7] "png"
        (revision sample_cache) (key_prefix sample_cache)
      = key_prefix sample_cache +:+ "/" +:+ pretty (revision sample_cache)
          +:+ "/" +:+ layer_name (sample_layer 15)
          +:+ "/" +:+ pretty (zoom sample_coord)
          +:+ "/" +:+ pretty (column sample_coord)
          +:+ "/" +:+ pretty (row sample_coord)
          +:+ (if decide ([30; -4; 7] = []) then ""
               else "/" +:+ String.concat "/" (id_str <$> ids))
          +:+ "." +:+ "png".
Proof.
  exact (tile_key_format sample_cache (sample_layer 15) sample_coord
           [30; -4; 7] "png").
Defined.

(** The ids of a key are pinned by that description: the one ascending
    rearrangement of [[30; -4; 7]] is [[-4; 7; 30]]. *)
Example tile_key_format_sample :
  tile_key (sample_layer 15) sample_coord [30; -4; 7] "png" 0 "p"
  = "p/0/osm/1/2/3/-4/7/30.png".
Proof. vm_compute. reflexivity. Qed.

(** ** Order independence *)

Lemma tile_key_perm {A} `{AuthIdOrder A} (layer : Layer) (coord : Coord)
    (a1 a2 : list A) (format : string) (rev : Z) (key_prefix : string) :
  a1 ≡ₚ a2 →
  tile_key layer coord a1 format rev key_prefix
  = tile_key layer coord a2 format rev key_prefix.
Proof.
  intros Hp. unfold tile_key. rewrite (sorted_perm a1 a2 Hp).
  destruct a1 as [|x a1], a2 as [|y a2]; try done.
  - by apply Permutation_nil_cons in Hp.
  - symmetry in Hp. by apply Permutation_nil_cons in Hp.
Qed.

(** C2: two tile identities with the same layer name, zoom, column, row
    and format whose [auth] hold the same identifiers, listed in any
    order, get the same key under every namespace configuration. *)
Theorem tile_key_order_independent {A} `{AuthIdOrder A} (self : Cache)
    (l1 l2 : Layer) (c1 c2 : Coord) (a1 a2 : list A) (f1 f2 : string) :
  NoDup a1 → NoDup a2 →
  same_identity l1 c1 a1 f1 l2 c2 a2 f2 →
  tile_key l1 c1 a1 f1 (revision self) (key_prefix self)
  = tile_key l2 c2 a2 f2 (revision self) (key_prefix self).
Proof.
  intros Hnd1 Hnd2 (Hname & Hz & Hc & Hr & -> & Hmem).
  assert (a1 ≡ₚ a2) as Hp by by apply NoDup_Permutation.
  rewrite !tile_key_shape, Hname, Hz, Hc, Hr.
  rewrite <-!tile_key_shape. by apply tile_key_perm.
Qed.

Lemma tile_key_order_independent_witness :
  tile_key {| layer_name := "osm"; stale_lock_timeout := 15; cache_lifespan := None |}
      {| zoom := 3; column := 1; row := 2 |} [7; 2; 5] "png" 0 "p"
  = tile_key {| layer_name := "osm"; stale_lock_timeout := 9; cache_lifespan := Some 60 |}
      {| zoom := 3; column := 1; row := 2 |} [5; 7; 2] "png" 0 "p".
Proof.
  apply (tile_key_order_independent
           {| servers := []; revision := 0; key_prefix := "p" |}).
  - by apply (bool_decide_unpack _).
  - by apply (bool_decide_unpack _).
  - repeat split. all: rewrite !elem_of_cons, !elem_of_nil; tauto.
Defined.

(** ** Reading a key back *)

Lemma join_one (sep x : string) : join sep [x] = x.
Proof. reflexivity. Qed.

Lemma join_more (sep x y : string) (l : list string) :
  join sep (x :: y :: l) = x +:+ sep +:+ join sep (y :: l).
Proof. reflexivity. Qed.

Ltac cut_key bad Heq :=
  apply (split_at_bad bad) in Heq;
  [ | first [ done | apply pct_d_slash_free | apply pct_d_free ] .. ].

(** The identifiers of a key and its format are read back in one way
    only, when no identifier holds a [/] or a [.]. *)
Lemma join_split (l1 l2 : list string) (f1 f2 : string) :
  l1 ≠ [] → l2 ≠ [] →
  Forall (λ s, free_of is_sep s = true) l1 →
  Forall (λ s, free_of is_sep s = true) l2 →
  join "/" l1 +:+ String "." f1 = join "/" l2 +:+ String "." f2 →
  l1 = l2 ∧ f1 = f2.
Proof.
  revert l2. induction l1 as [|x l1 IH]; [done|].
  intros [|y l2]; [done|]. intros _ _ Hf1 Hf2.
  apply Forall_cons in Hf1 as [Hx Hf1]. apply Forall_cons in Hf2 as [Hy Hf2].
  destruct l1 as [|x' l1], l2 as [|y' l2];
    rewrite ?join_one, ?join_more, ?app_assoc_str; norm_app; intros Heq;
    cut_key is_sep Heq; destruct Heq as (-> & Hc & Hrest); try done.
  destruct (IH (y' :: l2)) as [-> ->]; done.
Qed.

(** Two lists with the same renderings are the same list, when no two
    different members of them are rendered alike. *)
Lemma fmap_inj_on {A B} (f : A → B) (l1 l2 : list A) :
  (∀ x y, x ∈ l1 → y ∈ l2 → f x = f y → x = y) →
  f <$> l1 = f <$> l2 → l1 = l2.
Proof.
  revert l2. induction l1 as [|x l1 IH]; intros [|y l2] Hinj Heq;
    simplify_eq/=; [done|].
  f_equal.
  - apply Hinj; [by left|by left|done].
  - apply IH; [|done]. intros x' y' Hx' Hy'. apply Hinj; by right.
Qed.

Lemma tile_key_inj {A} `{AuthId A} (rev : Z) (key_prefix : string)
    (l1 l2 : Layer) (c1 c2 : Coord) (a1 a2 : list A) (f1 f2 : string) :
  free_of is_slash (layer_name l1) = true →
  free_of is_slash (layer_name l2) = true →
  forallb (λ x, free_of is_sep (id_str x)) (a1 ++ a2) = true →
  (∀ x y, x ∈ a1 ++ a2 → y ∈ a1 ++ a2 → id_str x = id_str y → x = y) →
  tile_key l1 c1 a1 f1 rev key_prefix = tile_key l2 c2 a2 f2 rev key_prefix →
  same_identity l1 c1 a1 f1 l2 c2 a2 f2.
Proof.
  intros Hn1 Hn2 Hids Hinj Hkey.
  assert (∀ a : list A, (∀ x, x ∈ a → x ∈ a1 ++ a2) →
            Forall (λ s, free_of is_sep s = true) (id_str <$> sorted a)) as Hfree.
  { intros a Hsub. apply Forall_fmap, Forall_forall. intros x Hx.
    rewrite sorted_Permutation in Hx.
    apply (proj1 (forallb_forall _ _) Hids), list_elem_of_In, Hsub, Hx. }
  rewrite !tile_key_shape in Hkey. unfold key_format in Hkey.
  apply (inj (String.app key_prefix)) in Hkey. norm_app in Hkey.
  injection Hkey as Hkey.
  apply (inj (String.app (pct_d rev))) in Hkey. injection Hkey as Hkey.
  cut_key is_slash Hkey. destruct Hkey as (Hname & _ & Hkey).
  cut_key is_slash Hkey. destruct Hkey as (Hz%pct_d_inj & _ & Hkey).
  cut_key is_slash Hkey. destruct Hkey as (Hc%pct_d_inj & _ & Hkey).
  unfold same_identity. do 3 (split; [done|]).
  unfold auth_segment in Hkey.
  destruct a1 as [|x a1], a2 as [|y a2]; norm_app in Hkey;
    cut_key is_sep Hkey; destruct Hkey as (Hr%pct_d_inj & Hsep & Hkey);
    try done.
  apply join_split in Hkey as [Hsorted ->].
  - split; [done|]. split; [done|].
    apply fmap_inj_on in Hsorted.
    2:{ intros k k' Hk Hk'. rewrite sorted_Permutation in Hk, Hk'.
        apply Hinj; apply elem_of_app; [by left|by right]. }
    assert (x :: a1 ≡ₚ y :: a2) as Hp.
    { by rewrite <-(sorted_Permutation (x :: a1)), Hsorted, sorted_Permutation. }
    intros k. by rewrite Hp.
  - by intros ?%fmap_nil_inv%sorted_nil_inv.
  - by intros ?%fmap_nil_inv%sorted_nil_inv.
  - apply Hfree. intros k Hk. apply elem_of_app. by left.
  - apply Hfree. intros k Hk. apply elem_of_app. by right.
Qed.

(** ** Distinct identities, distinct keys *)

(** C3, as the code has it: under one namespace configuration, two tile
    identities that differ in layer name, zoom, column, row, format or in
    the identifiers [auth] holds get different keys, provided neither
    layer name holds a [/], no identifier of either [auth] is rendered
    with a [/] or a [.] in it, and no two different identifiers of the
    two [auth] are rendered alike.  The identifiers may be of any type,
    mixed ones included. *)
Theorem tile_key_distinct {A} `{AuthId A} (self : Cache)
    (l1 l2 : Layer) (c1 c2 : Coord) (a1 a2 : list A) (f1 f2 : string) :
  free_of is_slash (layer_name l1) = true →
  free_of is_slash (layer_name l2) = true →
  forallb (λ x, free_of is_sep (id_str x)) (a1 ++ a2) = true →
  (∀ x y, x ∈ a1 ++ a2 → y ∈ a1 ++ a2 → id_str x = id_str y → x = y) →
  ¬ same_identity l1 c1 a1 f1 l2 c2 a2 f2 →
  tile_key l1 c1 a1 f1 (revision self) (key_prefix self)
  ≠ tile_key l2 c2 a2 f2 (revision self) (key_prefix self).
Proof.
  intros Hn1 Hn2 Hids Hinj Hdiff Hkey. apply Hdiff.
  by apply (tile_key_inj (revision self) (key_prefix self)).
Qed.

Lemma tile_key_distinct_witness :
  tile_key {| layer_name := "osm"; stale_lock_timeout := 15; cache_lifespan := None |}
      {| zoom := 3; column := 1; row := 2 |} [7; 2] "png" 0 "p"
  ≠ tile_key {| layer_name := "osm"; stale_lock_timeout := 15; cache_lifespan := None |}
      {| zoom := 3; column := 1; row := 27 |} ([] : list Z) "png" 0 "p".
Proof.
  apply (tile_key_distinct {| servers := []; revision := 0; key_prefix := "p" |}).
  - reflexivity.
  - reflexivity.
  - vm_compute. reflexivity.
  - intros x y Hx Hy. rewrite app_nil_r, !elem_of_cons, elem_of_nil in Hx, Hy.
    destruct Hx as [->|[->|[]]], Hy as [->|[->|[]]]; intros Heq;
      first [reflexivity | vm_compute in Heq; discriminate].
  - unfold same_identity. simpl. intros (_ & _ & _ & Hrow & _). lia.
Defined.

(** X3: with integer identifiers only the layer names matter. *)
Corollary tile_key_distinct_int (self : Cache)
    (l1 l2 : Layer) (c1 c2 : Coord) (a1 a2 : list Z) (f1 f2 : string) :
  free_of is_slash (layer_name l1) = true →
  free_of is_slash (layer_name l2) = true →
  ¬ same_identity l1 c1 a1 f1 l2 c2 a2 f2 →
  tile_key l1 c1 a1 f1 (revision self) (key_prefix self)
  ≠ tile_key l2 c2 a2 f2 (revision self) (key_prefix self).
Proof.
  intros Hn1 Hn2 Hdiff Hkey. apply Hdiff.
  eapply tile_key_inj; [done|done| | |done].
  - apply forallb_forall. intros x _. apply pct_d_free.
  - intros x y _ _ Heq. exact (pct_d_inj x y Heq).
Qed.

(** C3 as stated fails: a layer named [a/1] at tile 2/3/4 without
    identifiers and a layer named [a] at tile 1/2/3 with the identifier 4
    differ in every field but the format, and share their key. *)
Lemma tile_key_collision :
  let l1 := {| layer_name := "a/1"; stale_lock_timeout := 15; cache_lifespan := None |} in
  let l2 := {| layer_name := "a"; stale_lock_timeout := 15; cache_lifespan := None |} in
  let c1 := {| zoom := 2; column := 3; row := 4 |} in
  let c2 := {| zoom := 1; column := 2; row := 3 |} in
  ¬ same_identity l1 c1 ([] : list Z) "png" l2 c2 [4] "png"
  ∧ tile_key l1 c1 ([] : list Z) "png" 0 "p" = "p/0/a/1/2/3/4.png"
  ∧ tile_key l2 c2 [4] "png" 0 "p" = "p/0/a/1/2/3/4.png".
Proof.
  split; [|split].
  - intros (Hname & _). discriminate Hname.
  - vm_compute. reflexivity.
  - vm_compute. reflexivity.
Qed.

(** Identifiers rendered alike collide as well: the integer [1] and the
    string ['1']. *)
Example tile_key_collision_mixed_ids :
  ¬ same_identity (sample_layer 15) sample_coord [PInt 1] "png"
      (sample_layer 15) sample_coord [PStr "1"] "png"
  ∧ tile_key (sample_layer 15) sample_coord [PInt 1] "png" 0 "p"
    = "p/0/osm/1/2/3/1.png"
  ∧ tile_key (sample_layer 15) sample_coord [PStr "1"] "png" 0 "p"
    = "p/0/osm/1/2/3/1.png".
Proof.
  split; [|split].
  - intros (_ & _ & _ & _ & _ & Hmem).
    assert (PInt 1 ∈ [PStr "1"]) as Hin by (apply Hmem; left).
    apply list_elem_of_singleton in Hin. discriminate.
  - vm_compute. reflexivity.
  - vm_compute. reflexivity.
Qed.

(** Identifiers rendered with a [/] collide as well: the one identifier
    [4/5] and the two identifiers [4] and [5]. *)
Example tile_key_collision_str_ids :
  let l := {| layer_name := "a"; stale_lock_timeout := 15; cache_lifespan := None |} in
  let c := {| zoom := 1; column := 2; row := 3 |} in
  ¬ same_identity l c ["4/5"] "png" l c ["4"; "5"] "png"
  ∧ tile_key l c ["4/5"] "png" 0 "p" = tile_key l c ["4"; "5"] "png" 0 "p".
Proof.
  split.
  - intros (_ & _ & _ & _ & _ & Hmem).
    assert ("4/5" ∈ ["4"; "5"]) as Hin by (apply Hmem; left).
    rewrite !elem_of_cons, elem_of_nil in Hin.
    destruct Hin as [?|[?|[]]]; discriminate.
  - vm_compute. reflexivity.
Qed.

(** * The cache operations *)

#[local] Arguments store_set : simpl never.
#[local] Arguments store_get : simpl never.
#[local] Arguments store_add : simpl never.
#[local] Arguments store_delete : simpl never.
#[local] Arguments tile_key : simpl never.

(** ** One step of each primitive on an explicit world *)

Lemma run_Client servers t st n L fs os tr :
  Client servers (Build_World t st n L fs os tr)
  = (Ok tt, Build_World t st (S n) L fs os (tr ++ [Opened])).
Proof. reflexivity. Qed.

Lemma run_disconnect_all t st n L fs os tr :
  disconnect_all (Build_World t st n L fs os tr)
  = (Ok tt, Build_World t st (Init.Nat.pred n) L fs os (tr ++ [Closed])).
Proof. reflexivity. Qed.

Lemma run_time t st n L fs os tr :
  _time (Build_World t st n L fs os tr) = (Ok t, Build_World t st n L fs os tr).
Proof. reflexivity. Qed.

Lemma run_sleep d t st n L fs os tr :
  _sleep d (Build_World t st n L fs os tr)
  = (Ok tt, Build_World (t + d) (run_cmds (t + d) (default [] (head os)) st)
              n L fs (tail os) tr).
Proof. reflexivity. Qed.

Lemma run_call {R} key (serve : Z → gmap string Entry → R * gmap string Entry)
    (event : Z → R → Event) t st n L fs os tr :
  call key serve event (Build_World t st n L fs os tr)
  = match fs with
    | true :: _ =>
        (Raise StoreError,
         Build_World (t + Z.of_N L) st n L (tail fs) os (tr ++ [Failed key t]))
    | _ =>
        (Ok (serve (t + Z.of_N L) st).1,
         Build_World (t + Z.of_N L) (serve (t + Z.of_N L) st).2 n L (tail fs) os
           (tr ++ [event t (serve (t + Z.of_N L) st).1]))
    end.
Proof.
  unfold call, log, set_store, set_faults, set_now.
  cbn [now store sessions latency faults others trace].
  destruct fs as [|[] fs]; [|done|]; by destruct (serve _ _).
Qed.

Lemma run_elapse d t st n L fs os tr :
  elapse d (Build_World t st n L fs os tr) = Build_World (t + Z.of_N d) st n L fs os tr.
Proof. reflexivity. Qed.

Lemma run_set_faults fs' t st n L fs os tr :
  set_faults fs' (Build_World t st n L fs os tr) = Build_World t st n L fs' os tr.
Proof. reflexivity. Qed.

(** Runs the state-passing plumbing of a computation on an explicit world. *)
Ltac run :=
  unfold mbind, M_bind, bind, ret, try_finally, mem_add, mem_set, mem_get, mem_delete;
  cbv beta iota zeta; cbn [fst snd tail];
  repeat (first [ rewrite run_Client | rewrite run_disconnect_all | rewrite run_time
                | rewrite run_sleep | rewrite run_call | rewrite run_elapse
                | rewrite run_set_faults ];
          cbv beta iota zeta; cbn [fst snd tail]);
  cbn [fst snd tail Init.Nat.pred now store sessions latency faults others trace].

(** ** The server *)

Lemma store_get_set (t t' : Z) (key value : string) (ttl : Z) (st : gmap string Entry) :
  ttl = 0 ∨ t' < t + ttl →
  store_get t' key (store_set t key value ttl st) = Some value.
Proof.
  intros Hlive. unfold store_get, store_set. rewrite lookup_insert_eq.
  unfold live, expiry; simpl. case_decide; [done|].
  rewrite bool_decide_true; [done|]. by destruct Hlive.
Qed.

Lemma store_get_delete (t : Z) (key : string) (st : gmap string Entry) :
  store_get t key (store_delete key st) = None.
Proof. unfold store_get, store_delete. by rewrite lookup_delete_eq. Qed.

(** ** unlock *)

(** C7: [unlock] deletes the entry at the key followed by [-lock]
    whatever it holds and touches no other entry; on a server without
    that entry it succeeds and changes nothing, and so does a second
    [unlock] after a first. *)
Theorem unlock_idempotent {A} `{AuthId A} (self : Cache) (layer : Layer)
    (coord : Coord) (auth : list A) (format : string) (w : World) :
  faults w = [] →
  let key := tile_key layer coord auth format (revision self) (key_prefix self)
               +:+ "-lock" in
  let once := unlock self layer coord auth format w in
  let twice := unlock self layer coord auth format once.2 in
  once.1 = Ok tt
  ∧ store once.2 = delete key (store w)
  ∧ store once.2 !! key = None
  ∧ (store w !! key = None → store once.2 = store w)
  ∧ twice.1 = Ok tt
  ∧ store twice.2 = store once.2
  ∧ store twice.2 !! key = None.
Proof.
  intros Hf. destruct w as [t st n L fs os tr]; simpl in Hf; subst fs.
  cbv zeta. unfold unlock. run. unfold store_delete.
  rewrite delete_delete_eq.
  repeat split; first [done | apply lookup_delete_eq | apply delete_id].
Qed.

Lemma unlock_idempotent_witness :
  let w := sample_world held_store 5 [] [] in
  let once := unlock sample_cache (sample_layer 1000) sample_coord ([] : list Z) "png" w in
  once.1 = Ok tt ∧ store once.2 !! "p/0/osm/1/2/3.png-lock" = None.
Proof.
  intros w once.
  destruct (unlock_idempotent sample_cache (sample_layer 1000) sample_coord
              ([] : list Z) "png" w eq_refl) as (Hok & _ & Hgone & _).
  split; [exact Hok | exact Hgone].
Defined.

(** ** save, read, remove *)

(** C8: on a server that answers, [read] after [save] of the same tile
    identity returns the saved body, when nothing else touched the entry
    and it has not expired: its lifespan is 0 or unset, or longer than
    the time that passed until the server got the [read]. *)
Theorem save_then_read {A} `{AuthId A} (body : string) (self : Cache)
    (layer : Layer) (coord : Coord) (auth : list A) (format : string)
    (w : World) (d : N) :
  faults w = [] →
  or0 (cache_lifespan layer) = 0
    ∨ Z.of_N d + Z.of_N (latency w) < or0 (cache_lifespan layer) →
  let saved := save body self layer coord auth format w in
  saved.1 = Ok tt
  ∧ (read self layer coord auth format (elapse d saved.2)).1 = Ok (Some body).
Proof.
  intros Hf Hlive. destruct w as [t st n L fs os tr]; simpl in Hf, Hlive; subst fs.
  cbv zeta. unfold save, read. run. split; [done|].
  rewrite store_get_set; [done|]. destruct Hlive; [by left|right; lia].
Qed.

Lemma save_then_read_witness :
  let w := sample_world ∅ 5 [] [] in
  let saved := save "tile bytes" sample_cache (sample_layer 1000) sample_coord
                 [3; 1] "png" w in
  (read sample_cache (sample_layer 1000) sample_coord [3; 1] "png"
     (elapse 59000 saved.2)).1 = Ok (Some "tile bytes").
Proof.
  intros w saved.
  refine (proj2 (save_then_read "tile bytes" sample_cache (sample_layer 1000)
                   sample_coord [3; 1] "png" w 59000 eq_refl _)).
  right. vm_compute. reflexivity.
Defined.

(** C9: on a server that answers, [read] after [remove] of the same tile
    identity returns [None], the absence marker, whether or not the
    server held an entry for the tile before. *)
Theorem remove_then_read {A} `{AuthId A} (self : Cache) (layer : Layer)
    (coord : Coord) (auth : list A) (format : string) (w : World) (d : N) :
  faults w = [] →
  let removed := remove self layer coord auth format w in
  removed.1 = Ok tt
  ∧ (read self layer coord auth format (elapse d removed.2)).1 = Ok None.
Proof.
  intros Hf. destruct w as [t st n L fs os tr]; simpl in Hf; subst fs.
  cbv zeta. unfold remove, read. run. by rewrite store_get_delete.
Qed.

Lemma remove_then_read_witness :
  let w := sample_world {[ "p/0/osm/1/2/3.png" :=
                             {| e_value := "old"; e_expires := None |} ]} 5 [] [] in
  let removed := remove sample_cache (sample_layer 1000) sample_coord
                   ([] : list Z) "png" w in
  (read sample_cache (sample_layer 1000) sample_coord ([] : list Z) "png" w).1
    = Ok (Some "old")
  ∧ (read sample_cache (sample_layer 1000) sample_coord ([] : list Z) "png"
       (elapse 0 removed.2)).1 = Ok None.
Proof.
  intros w removed. split.
  - vm_compute. reflexivity.
  - exact (proj2 (remove_then_read sample_cache (sample_layer 1000) sample_coord
                    ([] : list Z) "png" w 0 eq_refl)).
Defined.

(** ** One round of the loop of lock *)

Lemma lock_try_S {A} `{AuthId A} (fuel : nat) (key : string) (due timeout : Z) :
  lock_try (S fuel) key due timeout
  = (t ← _time;
     if bool_decide (t < due) then
       created ← mem_add (key +:+ "-lock") "locked." timeout;
       if (created : bool) then ret tt
       else _sleep POLL ;; lock_try fuel key due timeout
     else
       mem_set (key +:+ "-lock") "locked." timeout).
Proof. reflexivity. Qed.

(** ** Client sessions *)

Section sessions.
Context {A : Type} `{AuthId A}.
Implicit Types (self : Cache) (layer : Layer) (coord : Coord) (auth : list A).
Implicit Types (format key : string) (w : World).

Lemma lock_try_sessions fuel key due timeout w :
  sessions (lock_try fuel key due timeout w).2 = sessions w.
Proof.
  revert w. induction fuel as [|fuel IH]; intros w; [done|].
  destruct w as [t st n L fs os tr]. rewrite lock_try_S. run.
  case_bool_decide; run.
  - destruct fs as [|[] fs]; run; [|done|].
    all: destruct (store_add _ _ _ _ _) as [[] st']; run; [done|].
    all: by rewrite IH.
  - by destruct fs as [|[] fs].
Qed.

(** X19: [lock] disconnects on every way out of its [try] block: a creation
    that succeeded, the set after the loop, a store call that raised. *)
Lemma lock_releases_session fuel self layer coord auth format w :
  (lock fuel self layer coord auth format w).1 ≠ OutOfFuel →
  sessions (lock fuel self layer coord auth format w).2 = sessions w.
Proof.
  unfold lock. destruct w as [t st n L fs os tr]. run.
  match goal with |- context [lock_try ?f ?k ?d ?T ?w0] =>
    pose proof (lock_try_sessions f k d T w0) as Hs;
    destruct (lock_try f k d T w0) as [[r|e|] w'] end; simpl in *.
  - by rewrite Hs.
  - by rewrite Hs.
  - done.
Qed.

(** The other four operations disconnect when the store call returns. *)
Lemma unlock_releases_on_return self layer coord auth format w :
  head (faults w) ≠ Some true →
  (unlock self layer coord auth format w).1 = Ok tt
  ∧ sessions (unlock self layer coord auth format w).2 = sessions w.
Proof.
  destruct w as [t st n L fs os tr]. unfold unlock. run.
  by destruct fs as [|[] fs].
Qed.

Lemma remove_releases_on_return self layer coord auth format w :
  head (faults w) ≠ Some true →
  (remove self layer coord auth format w).1 = Ok tt
  ∧ sessions (remove self layer coord auth format w).2 = sessions w.
Proof.
  destruct w as [t st n L fs os tr]. unfold remove. run.
  by destruct fs as [|[] fs].
Qed.

Lemma read_releases_on_return self layer coord auth format w :
  head (faults w) ≠ Some true →
  sessions (read self layer coord auth format w).2 = sessions w.
Proof.
  destruct w as [t st n L fs os tr]. unfold read. run.
  by destruct fs as [|[] fs].
Qed.

Lemma save_releases_on_return body self layer coord auth format w :
  head (faults w) ≠ Some true →
  (save body self layer coord auth format w).1 = Ok tt
  ∧ sessions (save body self layer coord auth format w).2 = sessions w.
Proof.
  destruct w as [t st n L fs os tr]. unfold save. run.
  by destruct fs as [|[] fs].
Qed.

(** C4 fails on the code for four of the five operations: when the one
    store call of [unlock], [remove], [read] or [save] raises, the
    exception leaves the operation before [disconnect_all] is reached and
    the session opened by [Client] stays open, its last logged event
    being the failed call. *)
Theorem store_failure_leaks_session self layer coord auth format body w fs :
  let w0 := set_faults (true :: fs) w in
  let leaked (res : Result unit * World) :=
    res.1 = Raise StoreError ∧ sessions res.2 = S (sessions w)
    ∧ ∃ key, trace res.2 = trace w ++ [Opened; Failed key (now w)] in
  leaked (unlock self layer coord auth format w0)
  ∧ leaked (remove self layer coord auth format w0)
  ∧ leaked (save body self layer coord auth format w0)
  ∧ (read self layer coord auth format w0).1 = Raise StoreError
  ∧ sessions (read self layer coord auth format w0).2 = S (sessions w).
Proof.
  destruct w as [t st n L fs0 os tr].
  unfold unlock, remove, save, read. run.
  rewrite <-!(assoc_L (++)). simpl. repeat split; eauto.
Qed.

(** [lock] in the same situation: the first store call raises, and the
    session is closed all the same. *)
Lemma lock_failure_releases_session fuel self layer coord auth format w fs :
  let w0 := set_faults (true :: fs) w in
  (lock (S fuel) self layer coord auth format w0).1 = Raise StoreError
  ∧ sessions (lock (S fuel) self layer coord auth format w0).2 = sessions w.
Proof.
  destruct w as [t st n L fs0 os tr]. cbv zeta. unfold lock. run.
  rewrite lock_try_S. run. by case_bool_decide; run.
Qed.
End sessions.

Example read_leaks_session :
  let w := sample_world ∅ 5 [true] [] in
  let res := read sample_cache (sample_layer 1000) sample_coord ([] : list Z) "png" w in
  res.1 = Raise StoreError ∧ sessions res.2 = 1%nat
  ∧ trace res.2 = [Opened; Failed "p/0/osm/1/2/3.png" 0].
Proof. vm_compute. done. Qed.

(** ** The loop of lock: clock and fuel *)

Section lock_loop.
Context {A : Type} `{AuthId A}.
Implicit Types (self : Cache) (layer : Layer) (coord : Coord) (auth : list A).
Implicit Types (format key : string) (w : World).

(** With fuel for one round per [POLL] left until the deadline, and one
    more, [lock_try] comes to its end; it returns one store call after a
    deadline that has passed, and less than [POLL] and two store calls
    after a deadline still ahead. *)
Lemma lock_try_clock n key due timeout w :
  due - now w ≤ POLL * Z.of_nat n →
  let res := lock_try (S n) key due timeout w in
  res.1 ≠ OutOfFuel
  ∧ latency res.2 = latency w
  ∧ (due ≤ now w → now res.2 = now w + Z.of_N (latency w))
  ∧ (now w < due →
       now w + Z.of_N (latency w) ≤ now res.2
       ∧ now res.2 < due + POLL + 2 * Z.of_N (latency w)).
Proof.
  revert w. induction n as [|n IH]; intros w Hfuel;
    destruct w as [t st k L fs os tr]; cbn [now latency] in Hfuel |- *;
    cbv zeta; rewrite lock_try_S; run; unfold POLL in *.
  - rewrite bool_decide_false by lia. run.
    destruct fs as [|[] fs]; run; repeat split; try done; lia.
  - case_bool_decide as Hdue; run.
    + assert (∀ w2, now w2 = t + Z.of_N L + 200 → latency w2 = L →
        (lock_try (S n) key due timeout w2).1 ≠ OutOfFuel
        ∧ latency (lock_try (S n) key due timeout w2).2 = L
        ∧ (due ≤ t → now (lock_try (S n) key due timeout w2).2 = t + Z.of_N L)
        ∧ (t < due →
             t + Z.of_N L ≤ now (lock_try (S n) key due timeout w2).2
             ∧ now (lock_try (S n) key due timeout w2).2
               < due + 200 + 2 * Z.of_N L)) as Hnext.
      { intros w2 Hnow Hlat.
        destruct (IH w2) as (Hr & HL & Hpast & Hahead); [lia|].
        rewrite Hnow, Hlat in *.
        split; [done|]. split; [done|]. split; [lia|]. intros _.
        destruct (decide (due ≤ t + Z.of_N L + 200)) as [Hd|Hd];
          [specialize (Hpast Hd) | specialize (Hahead ltac:(lia))]; lia. }
      destruct fs as [|[] fs]; run.
      * destruct (store_add _ _ _ _ _) as [[] st']; run.
        { repeat split; try done; lia. }
        by apply Hnext.
      * repeat split; try done; lia.
      * destruct (store_add _ _ _ _ _) as [[] st']; run.
        { repeat split; try done; lia. }
        by apply Hnext.
    + destruct fs as [|[] fs]; run; repeat split; try done; lia.
Qed.

Lemma lock_fuel_enough (timeout : Z) (extra : nat) :
  ∃ n, (lock_fuel timeout + extra)%nat = S n ∧ timeout ≤ POLL * Z.of_nat n.
Proof.
  unfold lock_fuel, POLL. exists (Z.to_nat (timeout / 200) + 1 + extra)%nat.
  split; [lia|].
  destruct (decide (0 ≤ timeout)).
  - pose proof (Z.div_pos timeout 200). 
    pose proof (Z.mul_succ_div_gt timeout 200). lia.
  - lia.
Qed.
End lock_loop.

(** ** Bounded wait *)

(** C5, as the code has it: for a positive [stale_lock_timeout], a [lock]
    call that starts at time t comes to its end, whatever the holder and
    the other clients do, before t + [stale_lock_timeout] + the poll
    interval + the time of two store calls; t + [stale_lock_timeout]
    itself is not a bound. *)
Theorem lock_bounded_wait {A} `{AuthId A} (extra : nat) (self : Cache)
    (layer : Layer) (coord : Coord) (auth : list A) (format : string) (w : World) :
  0 < stale_lock_timeout layer →
  let res := lock (lock_fuel (stale_lock_timeout layer) + extra)
               self layer coord auth format w in
  res.1 ≠ OutOfFuel
  ∧ now w ≤ now res.2
  ∧ now res.2 < now w + stale_lock_timeout layer + POLL + 2 * Z.of_N (latency w).
Proof.
  intros Hpos.
  destruct (lock_fuel_enough (stale_lock_timeout layer) extra) as (n & -> & Hn).
  destruct w as [t st k L fs os tr]. unfold lock. run.
  match goal with |- context [lock_try (S n) ?key ?d ?T ?w0] =>
    destruct (lock_try_clock n key d T w0) as (Hr & HL & _ & Hahead);
      [simpl; lia|];
    destruct (lock_try (S n) key d T w0) as [[r|e|] w'] end;
    simpl in *; try done.
  all: destruct Hahead as [Hlo Hhi]; [lia|].
  all: repeat split; try done; lia.
Qed.

Lemma lock_bounded_wait_witness :
  let w := sample_world held_store 5 [] [] in
  let res := lock (lock_fuel 1000) sample_cache (sample_layer 1000) sample_coord
               ([] : list Z) "png" w in
  res.1 ≠ OutOfFuel ∧ now res.2 < 1210.
Proof.
  intros w res.
  destruct (lock_bounded_wait 0 sample_cache (sample_layer 1000) sample_coord
              ([] : list Z) "png" w) as (Hr & _ & Hlt).
  - simpl. lia.
  - split; [exact Hr | exact Hlt].
Defined.

(** C5 as stated fails: with a timeout of one second, a holder that never
    unlocks and store calls of 5 ms, [lock] called at time 0 returns at
    1030 ms; with a timeout of 300 ms and store calls that take no time
    at all, it returns at 400 ms. *)
Lemma lock_overshoots_timeout :
  let w1 := sample_world held_store 5 [] [] in
  let r1 := lock (lock_fuel 1000) sample_cache (sample_layer 1000) sample_coord
              ([] : list Z) "png" w1 in
  let w2 := sample_world held_store 0 [] [] in
  let r2 := lock (lock_fuel 300) sample_cache (sample_layer 300) sample_coord
              ([] : list Z) "png" w2 in
  (r1.1 = Ok tt ∧ now r1.2 = 1030
   ∧ ¬ now r1.2 ≤ now w1 + stale_lock_timeout (sample_layer 1000))
  ∧ (r2.1 = Ok tt ∧ now r2.2 = 400
     ∧ ¬ now r2.2 ≤ now w2 + stale_lock_timeout (sample_layer 300)).
Proof. vm_compute. repeat split; try done; by intros []. Qed.

(** When store calls take no time and the timeout is a whole number of
    poll intervals, the steal happens at the deadline to the millisecond. *)
Example lock_steals_at_deadline :
  let w := sample_world held_store 0 [] [] in
  let res := lock (lock_fuel 1000) sample_cache (sample_layer 1000) sample_coord
               ([] : list Z) "png" w in
  res.1 = Ok tt ∧ now res.2 = 1000
  ∧ trace res.2 = [Opened;
                   Added "p/0/osm/1/2/3.png-lock" 0 false;
                   Added "p/0/osm/1/2/3.png-lock" 200 false;
                   Added "p/0/osm/1/2/3.png-lock" 400 false;
                   Added "p/0/osm/1/2/3.png-lock" 600 false;
                   Added "p/0/osm/1/2/3.png-lock" 800 false;
                   Stored "p/0/osm/1/2/3.png-lock" 1000;
                   Closed].
Proof. vm_compute. done. Qed.

(** ** What lock asks of the server, and when *)

Section lock_trace.
Context {A : Type} `{AuthId A}.
Implicit Types (self : Cache) (layer : Layer) (coord : Coord) (auth : list A).
Implicit Types (format key : string) (w : World).

Lemma lock_try_trace fuel key due timeout w :
  ∃ evs, trace (lock_try fuel key due timeout w).2 = trace w ++ evs
       ∧ poll_trace (key +:+ "-lock") due (lock_try fuel key due timeout w).1 evs.
Proof.
  revert w. induction fuel as [|fuel IH]; intros w.
  { exists []. simpl. rewrite app_nil_r. split; [done|constructor]. }
  destruct w as [t st n L fs os tr]. rewrite lock_try_S. run.
  case_bool_decide as Hdue; run.
  - assert (∀ w2, trace w2 = tr ++ [Added (key +:+ "-lock") t false] →
        ∃ evs, trace (lock_try fuel key due timeout w2).2 = tr ++ evs
             ∧ poll_trace (key +:+ "-lock") due
                 (lock_try fuel key due timeout w2).1 evs) as Hnext.
    { intros w2 Htr. destruct (IH w2) as (evs & Hevs & Hpoll).
      exists (Added (key +:+ "-lock") t false :: evs). split.
      - by rewrite Hevs, Htr, <-(assoc_L (++)).
      - by constructor. }
    destruct fs as [|[] fs]; run.
    + destruct (store_add _ _ _ _ _) as [[] st']; run.
      * eexists. split; [done|]. by constructor.
      * by apply Hnext.
    + eexists. split; [done|]. constructor.
    + destruct (store_add _ _ _ _ _) as [[] st']; run.
      * eexists. split; [done|]. by constructor.
      * by apply Hnext.
  - destruct fs as [|[] fs]; run; eexists; (split; [done|]);
      constructor; lia.
Qed.

(** In a run of the loop the unconditional set is issued at or after the
    deadline only. *)
Lemma poll_trace_stored key due r evs k t :
  poll_trace key due r evs → Stored k t ∈ evs → due ≤ t.
Proof.
  induction 1 as [t0 ?|t0 ?|t0| |t0 r evs ? ? IH]; intros Hin.
  - apply list_elem_of_singleton in Hin. discriminate.
  - apply list_elem_of_singleton in Hin. by simplify_eq.
  - apply list_elem_of_singleton in Hin. discriminate.
  - by apply elem_of_nil in Hin.
  - apply elem_of_cons in Hin as [?|Hin]; [discriminate|by apply IH].
Qed.

(** A creation that succeeded was issued before the deadline and is the
    last event of the run, which returns normally and holds no set. *)
Lemma poll_trace_created key due r evs k t :
  poll_trace key due r evs → Added k t true ∈ evs →
  r = Ok tt ∧ t < due ∧ (∃ pre, evs = pre ++ [Added k t true])
  ∧ ∀ k' t', Stored k' t' ∉ evs.
Proof.
  induction 1 as [t0 ?|t0 ?|t0| |t0 r evs ? ? IH]; intros Hin.
  - apply list_elem_of_singleton in Hin. simplify_eq.
    repeat split; [done|by exists []|].
    intros k' t' Hs. apply list_elem_of_singleton in Hs. discriminate.
  - apply list_elem_of_singleton in Hin. discriminate.
  - apply list_elem_of_singleton in Hin. discriminate.
  - by apply elem_of_nil in Hin.
  - apply elem_of_cons in Hin as [?|Hin]; [discriminate|].
    destruct (IH Hin) as (-> & ? & [pre ->] & Hno).
    repeat split; [done|by exists (Added key t0 false :: pre)|].
    intros k' t' Hs. apply elem_of_cons in Hs as [?|Hs]; [discriminate|].
    by apply (Hno k' t').
Qed.

Lemma elem_of_framed (e : Event) (evs tl : list Event) :
  tl = [] ∨ tl = [Closed] → e ≠ Opened → e ≠ Closed →
  e ∈ Opened :: evs ++ tl → e ∈ evs.
Proof.
  intros Htl Ho Hc Hin. apply elem_of_cons in Hin as [?|Hin]; [done|].
  apply elem_of_app in Hin as [Hin|Hin]; [done|].
  destruct Htl as [-> | ->]; [by apply elem_of_nil in Hin|].
  by apply list_elem_of_singleton in Hin.
Qed.

(** C6: in every run of [lock], the unconditional set of the lock entry
    is issued only once the clock has reached the deadline, the time of
    the call plus [stale_lock_timeout]; and a creation that succeeds does
    so before the deadline, is followed by nothing but the disconnect,
    and [lock] returns without any set. *)
Theorem lock_steals_only_after_deadline fuel self layer coord auth format w :
  let res := lock fuel self layer coord auth format w in
  let due := now w + stale_lock_timeout layer in
  ∃ evs, trace res.2 = trace w ++ evs
    ∧ (∀ k t, Stored k t ∈ evs → due ≤ t)
    ∧ (∀ k t, Added k t true ∈ evs →
         res.1 = Ok tt ∧ t < due
         ∧ (∃ pre, evs = pre ++ [Added k t true; Closed])
         ∧ ∀ k' t', Stored k' t' ∉ evs).
Proof.
  destruct w as [t st n L fs os tr]. cbv zeta. unfold lock. run.
  match goal with |- context [lock_try fuel ?key ?d ?T ?w0] =>
    destruct (lock_try_trace fuel key d T w0) as (evs & Hevs & Hpoll);
    destruct (lock_try fuel key d T w0) as [r [t' st' n' L' fs' os' tr']] end.
  cbn [fst snd trace] in Hevs, Hpoll. subst tr'.
  assert (∀ tl k t0, tl = [] ∨ tl = [Closed] →
            Stored k t0 ∈ Opened :: evs ++ tl →
            t + stale_lock_timeout layer ≤ t0) as Hstored.
  { intros tl k t0 Htl Hin. eapply poll_trace_stored; [exact Hpoll|].
    by eapply elem_of_framed. }
  assert (∀ tl k t0, tl = [] ∨ tl = [Closed] →
            Added k t0 true ∈ Opened :: evs ++ tl →
            r = Ok tt ∧ t0 < t + stale_lock_timeout layer
            ∧ (∃ pre, Opened :: evs = pre ++ [Added k t0 true])
            ∧ ∀ k' t', Stored k' t' ∉ Opened :: evs ++ tl) as Hadded.
  { intros tl k t0 Htl Hin.
    assert (Added k t0 true ∈ evs) as Hin' by by eapply elem_of_framed.
    destruct (poll_trace_created _ _ _ _ k t0 Hpoll Hin')
      as (-> & Hlt & [pre ->] & Hno).
    repeat split; [done|by exists (Opened :: pre)|].
    intros k' t1 Hs. apply (Hno k' t1). by eapply elem_of_framed. }
  destruct r as [[]|e|]; run; rewrite <-?(assoc_L (++)); simpl.
  - exists (Opened :: evs ++ [Closed]). split; [done|].
    split; [intros k t0; apply Hstored; by right|].
    intros k t0 Hin.
    destruct (Hadded [Closed] k t0) as (_ & Hlt & [pre Hpre] & Hno);
      [by right|done|].
    repeat split; [done| |done].
    exists pre. by rewrite app_comm_cons, Hpre, <-(assoc_L (++)).
  - exists (Opened :: evs ++ [Closed]). split; [done|].
    split; [intros k t0; apply Hstored; by right|].
    intros k t0 Hin.
    by destruct (Hadded [Closed] k t0) as (? & _); [by right|done|].
  - exists (Opened :: evs ++ []). split; [by rewrite app_nil_r|].
    split; [intros k t0; apply Hstored; by left|].
    intros k t0 Hin.
    by destruct (Hadded [] k t0) as (? & _); [by left|done|].
Qed.
End lock_trace.

(** ** A timeout that is not positive *)

(** C10: with a [stale_lock_timeout] of zero or less the loop body never
    runs: [lock] issues no atomic create at all, only the unconditional
    set of the lock entry, at once, and returns, whatever the server
    holds, free lock included. *)
Theorem lock_nonpositive_timeout {A} `{AuthId A} (fuel : nat) (self : Cache)
    (layer : Layer) (coord : Coord) (auth : list A) (format : string) (w : World) :
  stale_lock_timeout layer ≤ 0 →
  let key := tile_key layer coord auth format (revision self) (key_prefix self)
               +:+ "-lock" in
  let res := lock (S fuel) self layer coord auth format w in
  (∃ e, trace res.2 = trace w ++ [Opened; e; Closed]
        ∧ (e = Stored key (now w) ∨ e = Failed key (now w)))
  ∧ now res.2 = now w + Z.of_N (latency w)
  ∧ (head (faults w) ≠ Some true →
       res.1 = Ok tt
       ∧ trace res.2 = trace w ++ [Opened; Stored key (now w); Closed]
       ∧ store res.2
         = store_set (now w + Z.of_N (latency w)) key "locked."
             (stale_lock_timeout layer) (store w)).
Proof.
  intros Htimeout. destruct w as [t st n L fs os tr]. cbv zeta.
  unfold lock. run. rewrite lock_try_S. run.
  rewrite bool_decide_false by lia. run.
  destruct fs as [|[] fs]; run; rewrite <-!(assoc_L (++)); simpl.
  - split; [eauto|]. done.
  - split; [eauto|]. split; [done|]. by intros [].
  - split; [eauto|]. done.
Qed.

Lemma lock_nonpositive_timeout_witness :
  let res := lock 1 sample_cache (sample_layer 0) sample_coord ([] : list Z) "png"
               (sample_world ∅ 5 [] []) in
  res.1 = Ok tt
  ∧ trace res.2 = [Opened; Stored "p/0/osm/1/2/3.png-lock" 0; Closed].
Proof.
  intros res.
  destruct (lock_nonpositive_timeout 0 sample_cache (sample_layer 0) sample_coord
              ([] : list Z) "png" (sample_world ∅ 5 [] []))
    as (_ & _ & Hok); [simpl; lia|].
  destruct Hok as (Hr & Htr & _); [discriminate|].
  split; [exact Hr | exact Htr].
Defined.

(** ** Two runs of the protocol *)

(** The holder unlocks while another caller waits: the waiter's next
    creation succeeds and nothing is stolen. *)
Example lock_after_unlock :
  let w := sample_world held_store 0 [] [[]; [CDelete "p/0/osm/1/2/3.png-lock"]] in
  let res := lock (lock_fuel 1000) sample_cache (sample_layer 1000) sample_coord
               ([] : list Z) "png" w in
  res.1 = Ok tt ∧ now res.2 = 400 ∧ sessions res.2 = 0%nat
  ∧ trace res.2 = [Opened;
                   Added "p/0/osm/1/2/3.png-lock" 0 false;
                   Added "p/0/osm/1/2/3.png-lock" 200 false;
                   Added "p/0/osm/1/2/3.png-lock" 400 true;
                   Closed].
Proof. vm_compute. done. Qed.

(** A free lock is taken at the first attempt. *)
Example lock_free :
  let res := lock (lock_fuel 1000) sample_cache (sample_layer 1000) sample_coord
               ([] : list Z) "png" (sample_world ∅ 5 [] []) in
  res.1 = Ok tt ∧ now res.2 = 5
  ∧ store res.2 !! "p/0/osm/1/2/3.png-lock"
    = Some {| e_value := "locked."; e_expires := Some 1005 |}
  ∧ trace res.2 = [Opened; Added "p/0/osm/1/2/3.png-lock" 0 true; Closed].
Proof. vm_compute. done. Qed.

(** * Further properties of the key deriver *)

Lemma tile_key_rev_inj {A} `{AuthId A} (key_prefix : string)
    (rev1 rev2 : Z) (l1 l2 : Layer) (c1 c2 : Coord) (a1 a2 : list A)
    (f1 f2 : string) :
  tile_key l1 c1 a1 f1 rev1 key_prefix = tile_key l2 c2 a2 f2 rev2 key_prefix →
  rev1 = rev2.
Proof.
  intros Hkey. rewrite !tile_key_shape in Hkey. unfold key_format in Hkey.
  apply (inj (String.app key_prefix)) in Hkey. norm_app in Hkey.
  injection Hkey as Hkey. cut_key is_slash Hkey.
  by destruct Hkey as (Hr%pct_d_inj & _).
Qed.

(** X1: two configurations with the same key prefix and different revisions
    never derive the same key, whatever the two tile identities are:
    changing [revision] leaves every tile saved before out of reach. *)
Theorem tile_key_revision_disjoint {A} `{AuthId A} (key_prefix : string)
    (rev1 rev2 : Z) (l1 l2 : Layer) (c1 c2 : Coord) (a1 a2 : list A)
    (f1 f2 : string) :
  rev1 ≠ rev2 →
  tile_key l1 c1 a1 f1 rev1 key_prefix ≠ tile_key l2 c2 a2 f2 rev2 key_prefix.
Proof.
  intros Hrev Hkey. apply Hrev.
  by apply (tile_key_rev_inj key_prefix rev1 rev2 l1 l2 c1 c2 a1 a2 f1 f2).
Qed.

Lemma tile_key_revision_disjoint_witness :
  tile_key (sample_layer 15) sample_coord [7] "png" 1 "p"
  ≠ tile_key (sample_layer 15) sample_coord [7] "png" 2 "p".
Proof. apply tile_key_revision_disjoint. lia. Defined.

(** X2: two configurations whose key prefixes differ and hold no [/] never
    derive the same key, whatever their revisions and the tile identities
    are: instances with such prefixes can share one server. *)
Theorem tile_key_prefix_disjoint {A} `{AuthId A} (p1 p2 : string)
    (rev1 rev2 : Z) (l1 l2 : Layer) (c1 c2 : Coord) (a1 a2 : list A)
    (f1 f2 : string) :
  free_of is_slash p1 = true → free_of is_slash p2 = true → p1 ≠ p2 →
  tile_key l1 c1 a1 f1 rev1 p1 ≠ tile_key l2 c2 a2 f2 rev2 p2.
Proof.
  intros Hp1 Hp2 Hne Hkey. rewrite !tile_key_shape in Hkey.
  unfold key_format in Hkey. norm_app in Hkey. cut_key is_slash Hkey.
  by destruct Hkey as (? & _).
Qed.

Lemma tile_key_prefix_disjoint_witness :
  tile_key (sample_layer 15) sample_coord [7] "png"
    (revision (__init__ None None None)) (key_prefix (__init__ None None None))
  ≠ tile_key (sample_layer 15) sample_coord [7] "png"
      (revision (__init__ None None (Some "unique-id")))
      (key_prefix (__init__ None None (Some "unique-id"))).
Proof. apply tile_key_prefix_disjoint; [reflexivity|reflexivity|discriminate]. Defined.

(** A prefix with a [/] in it gives no such protection. *)
Example tile_key_prefix_collision :
  tile_key {| layer_name := "0"; stale_lock_timeout := 15; cache_lifespan := None |}
    sample_coord [4] "png" 1 "a"
  = tile_key {| layer_name := "1"; stale_lock_timeout := 15; cache_lifespan := None |}
      {| zoom := 2; column := 3; row := 4 |} ([] : list Z) "png" 0 "a/1".
Proof. vm_compute. reflexivity. Qed.

(** * Further properties of the cache operations *)

Lemma lock_key_ne (key : string) : key +:+ "-lock" ≠ key.
Proof.
  induction key as [|c key IH]; norm_app; [discriminate|].
  intros Heq. injection Heq as Heq. done.
Qed.

Lemma store_get_set_ne (t t' : Z) (key key' value : string) (ttl : Z)
    (st : gmap string Entry) :
  key ≠ key' →
  store_get t' key' (store_set t key value ttl st) = store_get t' key' st.
Proof. intros Hne. unfold store_get, store_set. by rewrite lookup_insert_ne. Qed.

Lemma store_get_delete_ne (t : Z) (key key' : string) (st : gmap string Entry) :
  key ≠ key' →
  store_get t key' (store_delete key st) = store_get t key' st.
Proof. intros Hne. unfold store_get, store_delete. by rewrite lookup_delete_ne. Qed.

Section healthy.
Context {A : Type} `{AuthId A}.
Implicit Types (self : Cache) (layer : Layer) (coord : Coord) (auth : list A).
Implicit Types (format key body : string) (w : World).

(** X4: [read] asks the server once and changes nothing there: it returns
    the body stored under the tile's key, and [None] when the key is
    missing or its entry has expired by the time the server is asked. *)
Theorem read_returns_live_entry self layer coord auth format w :
  head (faults w) ≠ Some true →
  let key := tile_key layer coord auth format (revision self) (key_prefix self) in
  let res := read self layer coord auth format w in
  let asked := now w + Z.of_N (latency w) in
  res.1 = Ok (match store w !! key with
              | Some e => if live asked e then Some (e_value e) else None
              | None => None
              end)
  ∧ store res.2 = store w
  ∧ sessions res.2 = sessions w
  ∧ trace res.2 = trace w ++ [Opened; Fetched key (now w); Closed].
Proof.
  intros Hf. destruct w as [t st n L fs os tr]. cbv zeta. unfold read. run.
  destruct fs as [|[] fs]; try done; run; rewrite <-!(assoc_L (++)).
  all: by repeat split.
Qed.
End healthy.

Section composition.
Context {A : Type} `{AuthId A}.
Implicit Types (self : Cache) (layer : Layer) (coord : Coord) (auth : list A).
Implicit Types (format key body : string) (w : World).

(** X5: the last [save] wins: after two saves of one tile identity, [read]
    returns the second body, whatever the first was and however long it
    was to live, as long as the second entry has not expired. *)
Theorem save_overwrites body1 body2 self layer1 layer2 coord auth format w
    (d1 d2 : N) :
  faults w = [] →
  layer_name layer1 = layer_name layer2 →
  or0 (cache_lifespan layer2) = 0
    ∨ Z.of_N d2 + Z.of_N (latency w) < or0 (cache_lifespan layer2) →
  let w1 := (save body1 self layer1 coord auth format w).2 in
  let w2 := (save body2 self layer2 coord auth format (elapse d1 w1)).2 in
  (read self layer2 coord auth format (elapse d2 w2)).1 = Ok (Some body2).
Proof.
  intros Hf Hname Hlive. destruct w as [t st n L fs os tr].
  simpl in Hf, Hlive; subst fs. cbv zeta. unfold save, read.
  rewrite !tile_key_shape, Hname. run.
  rewrite store_get_set; [done|]. destruct Hlive; [by left|right; lia].
Qed.

(** X6: [save] and [remove] of one tile leave every tile with another key
    alone: reading the other tile afterwards gives what reading it at the
    same moment would have given without them. *)
Theorem other_keys_untouched body self1 layer1 coord1 (auth1 : list A) format1
    self2 layer2 coord2 (auth2 : list A) format2 w (d : N) :
  faults w = [] →
  tile_key layer1 coord1 auth1 format1 (revision self1) (key_prefix self1)
  ≠ tile_key layer2 coord2 auth2 format2 (revision self2) (key_prefix self2) →
  let later := elapse (d + latency w) w in
  (read self2 layer2 coord2 auth2 format2
     (elapse d (save body self1 layer1 coord1 auth1 format1 w).2)).1
  = (read self2 layer2 coord2 auth2 format2 later).1
  ∧ (read self2 layer2 coord2 auth2 format2
       (elapse d (remove self1 layer1 coord1 auth1 format1 w).2)).1
    = (read self2 layer2 coord2 auth2 format2 later).1.
Proof.
  intros Hf Hne. destruct w as [t st n L fs os tr]. simpl in Hf; subst fs.
  cbv zeta. unfold save, remove, read. run.
  rewrite store_get_set_ne, store_get_delete_ne by done.
  rewrite N2Z.inj_add.
  by replace (t + (Z.of_N d + Z.of_N L)) with (t + Z.of_N L + Z.of_N d) by lia.
Qed.

(** X7: a tile saved under one revision is out of reach under another: with
    nothing stored for the tile under the new revision, [read] there
    returns [None] after the [save] as it did before. *)
Theorem save_unreachable_under_other_revision body servers1 servers2
    (prefix : string) (rev1 rev2 : Z) layer coord auth format w (d : N) :
  faults w = [] → rev1 ≠ rev2 →
  store w !! tile_key layer coord auth format rev2 prefix = None →
  let old := {| servers := servers1; revision := rev1; key_prefix := prefix |} in
  let new := {| servers := servers2; revision := rev2; key_prefix := prefix |} in
  (save body old layer coord auth format w).1 = Ok tt
  ∧ (read new layer coord auth format
       (elapse d (save body old layer coord auth format w).2)).1 = Ok None.
Proof.
  intros Hf Hrev Hnone. destruct w as [t st n L fs os tr]. simpl in Hf, Hnone.
  subst fs. cbv zeta. unfold save, read. cbn [revision key_prefix servers]. run.
  split; [done|].
  rewrite store_get_set_ne.
  - unfold store_get. by rewrite Hnone.
  - intros Hkey. by apply tile_key_rev_inj in Hkey.
Qed.

(** X8: the tile entry and the lock entry of one tile identity are apart:
    [unlock] does not remove the tile, and neither [save] nor [remove]
    creates, changes or releases the lock. *)
Theorem tile_and_lock_apart body self layer coord auth format w (d : N) :
  faults w = [] →
  let key := tile_key layer coord auth format (revision self) (key_prefix self) in
  (read self layer coord auth format
     (elapse d (unlock self layer coord auth format w).2)).1
  = (read self layer coord auth format (elapse (d + latency w) w)).1
  ∧ store (save body self layer coord auth format w).2 !! (key +:+ "-lock")
    = store w !! (key +:+ "-lock")
  ∧ store (remove self layer coord auth format w).2 !! (key +:+ "-lock")
    = store w !! (key +:+ "-lock").
Proof.
  intros Hf. destruct w as [t st n L fs os tr]. simpl in Hf; subst fs.
  cbv zeta. unfold save, remove, unlock, read. run.
  rewrite store_get_delete_ne by apply lock_key_ne.
  unfold store_set, store_delete.
  rewrite lookup_insert_ne, lookup_delete_ne by (apply not_eq_sym, lock_key_ne).
  rewrite N2Z.inj_add.
  by replace (t + (Z.of_N d + Z.of_N L)) with (t + Z.of_N L + Z.of_N d) by lia.
Qed.

End composition.

Lemma save_overwrites_witness :
  let w1 := (save "old" sample_cache (sample_layer 15) sample_coord [7] "png"
               (sample_world ∅ 5 [] [])).2 in
  let w2 := (save "new" sample_cache (sample_layer 15) sample_coord [7] "png"
               (elapse 100 w1)).2 in
  (read sample_cache (sample_layer 15) sample_coord [7] "png" (elapse 100 w2)).1
  = Ok (Some "new").
Proof.
  apply (save_overwrites "old" "new" sample_cache (sample_layer 15) (sample_layer 15)
           sample_coord [7] "png" (sample_world ∅ 5 [] []) 100 100).
  - reflexivity.
  - reflexivity.
  - right. vm_compute. reflexivity.
Defined.

Lemma other_keys_untouched_witness :
  let w := sample_world {[ "p/0/osm/1/2/3.png" :=
                             {| e_value := "kept"; e_expires := None |} ]} 5 [] [] in
  (read sample_cache (sample_layer 15) sample_coord ([] : list Z) "png"
     (elapse 0 (save "other" sample_cache (sample_layer 15) sample_coord
                  ([] : list Z) "jpg" w).2)).1
  = (read sample_cache (sample_layer 15) sample_coord ([] : list Z) "png"
       (elapse (0 + latency w) w)).1.
Proof.
  intros w.
  refine (proj1 (other_keys_untouched "other" sample_cache (sample_layer 15)
                   sample_coord ([] : list Z) "jpg" sample_cache (sample_layer 15)
                   sample_coord ([] : list Z) "png" w 0 eq_refl _)).
  vm_compute. discriminate.
Defined.

Lemma save_unreachable_under_other_revision_witness :
  let old := {| servers := []; revision := 1; key_prefix := "p" |} in
  let new := {| servers := []; revision := 2; key_prefix := "p" |} in
  let w := sample_world ∅ 5 [] [] in
  (read new (sample_layer 15) sample_coord [7] "png"
     (elapse 0 (save "tile" old (sample_layer 15) sample_coord [7] "png" w).2)).1
  = Ok None.
Proof.
  intros old new w.
  refine (proj2 (save_unreachable_under_other_revision "tile" [] [] "p" 1 2
                   (sample_layer 15) sample_coord [7] "png" w 0 eq_refl _ _)).
  - lia.
  - reflexivity.
Defined.

Lemma tile_and_lock_apart_witness :
  let w := sample_world held_store 5 [] [] in
  store (save "tile" sample_cache (sample_layer 15) sample_coord ([] : list Z) "png" w).2
    !! "p/0/osm/1/2/3.png-lock"
  = Some {| e_value := "locked."; e_expires := None |}.
Proof.
  intros w.
  destruct (tile_and_lock_apart "tile" sample_cache (sample_layer 15) sample_coord
              ([] : list Z) "png" w 0 eq_refl) as (_ & Hsave & _).
  exact Hsave.
Defined.


(** * Further properties of lock *)

Section lock_more.
Context {A : Type} `{AuthId A}.
Implicit Types (self : Cache) (layer : Layer) (coord : Coord) (auth : list A).
Implicit Types (format key body : string) (w : World).

(** [lock] is its [try] block run in the world where the session is
    open, followed by the disconnect. *)
Lemma lock_via_try fuel self layer coord auth format w :
  let key := tile_key layer coord auth format (revision self) (key_prefix self) in
  let timeout := stale_lock_timeout layer in
  let w0 := Build_World (now w) (store w) (S (sessions w)) (latency w)
              (faults w) (others w) (trace w ++ [Opened]) in
  let inner := lock_try fuel key (now w + timeout) timeout w0 in
  let res := lock fuel self layer coord auth format w in
  res.1 = inner.1
  ∧ now res.2 = now inner.2 ∧ store res.2 = store inner.2
  ∧ latency res.2 = latency inner.2 ∧ faults res.2 = faults inner.2
  ∧ others res.2 = others inner.2
  ∧ (inner.1 ≠ OutOfFuel →
       trace res.2 = trace inner.2 ++ [Closed]
       ∧ sessions res.2 = Init.Nat.pred (sessions inner.2))
  ∧ (inner.1 = OutOfFuel → trace res.2 = trace inner.2).
Proof.
  destruct w as [t st n L fs os tr]. cbv zeta. unfold lock. run.
  destruct (lock_try _ _ _ _ _) as [[[]|e|] [t' st' n' L' fs' os' tr']]; by run.
Qed.

Lemma out_of_fuel_or_not {R} (r : Result R) : r = OutOfFuel ∨ r ≠ OutOfFuel.
Proof. destruct r; [by right|by right|by left]. Qed.

Lemma store_add_cases (t : Z) (key value : string) (ttl : Z) (st : gmap string Entry) :
  (store_get t key st = None
   ∧ store_add t key value ttl st = (true, store_set t key value ttl st))
  ∨ (store_get t key st ≠ None ∧ store_add t key value ttl st = (false, st)).
Proof. unfold store_add. destruct (store_get t key st); [right|left]; done. Qed.

(** X11: a lock that is free, its entry missing or expired, is taken at the
    first attempt: one atomic create, no sleep, and the entry is there
    with [stale_lock_timeout] to live. *)
Theorem lock_free_taken_at_once fuel self layer coord auth format w :
  0 < stale_lock_timeout layer →
  head (faults w) ≠ Some true →
  let key := tile_key layer coord auth format (revision self) (key_prefix self)
               +:+ "-lock" in
  let asked := now w + Z.of_N (latency w) in
  store_get asked key (store w) = None →
  let res := lock (S fuel) self layer coord auth format w in
  res.1 = Ok tt
  ∧ now res.2 = asked
  ∧ sessions res.2 = sessions w
  ∧ trace res.2 = trace w ++ [Opened; Added key (now w) true; Closed]
  ∧ store res.2 = store_set asked key "locked." (stale_lock_timeout layer) (store w).
Proof.
  intros Hpos Hf. destruct w as [t st n L fs os tr]. cbv zeta.
  cbn [now latency store]. intros Hfree.
  unfold lock. run. rewrite lock_try_S. run.
  rewrite bool_decide_true by lia. run.
  unfold store_add. rewrite Hfree.
  destruct fs as [|[] fs]; try done; run; by rewrite <-!(assoc_L (++)).
Qed.
End lock_more.

Lemma lock_free_taken_at_once_witness :
  let res := lock 1 sample_cache (sample_layer 1000) sample_coord ([] : list Z) "png"
               (sample_world ∅ 5 [] []) in
  res.1 = Ok tt ∧ now res.2 = 5.
Proof.
  intros res.
  destruct (lock_free_taken_at_once 0 sample_cache (sample_layer 1000) sample_coord
              ([] : list Z) "png" (sample_world ∅ 5 [] []))
    as (Hr & Hnow & _); [simpl; lia|discriminate|reflexivity|].
  split; [exact Hr | exact Hnow].
Defined.

Section lock_entry.
Context {A : Type} `{AuthId A}.
Implicit Types (self : Cache) (layer : Layer) (coord : Coord) (auth : list A).
Implicit Types (format key body : string) (w : World).

Lemma lock_try_entry fuel key due timeout w :
  (lock_try fuel key due timeout w).1 = Ok tt →
  store (lock_try fuel key due timeout w).2 !! (key +:+ "-lock")
  = Some {| e_value := "locked.";
            e_expires := expiry (now (lock_try fuel key due timeout w).2) timeout |}.
Proof.
  revert w. induction fuel as [|fuel IH]; intros w; [done|].
  destruct w as [t st n L fs os tr]. rewrite lock_try_S. run.
  case_bool_decide; run.
  - assert (∀ fs', (store_add (t + Z.of_N L) (key +:+ "-lock") "locked." timeout st).1
                   = true →
              store (Build_World (t + Z.of_N L)
                       (store_add (t + Z.of_N L) (key +:+ "-lock") "locked."
                          timeout st).2 n L fs' os
                       (tr ++ [Added (key +:+ "-lock") t true]))
                !! (key +:+ "-lock")
              = Some {| e_value := "locked.";
                        e_expires := expiry (t + Z.of_N L) timeout |}) as Hadd.
    { intros fs' Hc. simpl.
      destruct (store_add_cases (t + Z.of_N L) (key +:+ "-lock") "locked." timeout st)
        as [[_ Heq]|[_ Heq]]; rewrite Heq in Hc |- *; [|done].
      apply lookup_insert_eq. }
    destruct fs as [|[] fs]; run; [|done|].
    all: destruct (store_add _ _ _ _ _) as [[] st'] eqn:Hsa; run.
    all: try (intros _; by apply (Hadd [])).
    all: apply IH.
  - destruct fs as [|[] fs]; run; [|done|]; intros _; apply lookup_insert_eq.
Qed.

End lock_entry.


(** With a negative timeout the entry [lock] leaves has expired on
    arrival: [lock] returns normally and a get of the key answers
    nothing. *)
Example lock_negative_timeout_dead :
  let res := lock 1 sample_cache (sample_layer (-1000)) sample_coord
               ([] : list Z) "png" (sample_world ∅ 5 [] []) in
  res.1 = Ok tt
  ∧ store res.2 !! "p/0/osm/1/2/3.png-lock"
    = Some {| e_value := "locked."; e_expires := Some (-995) |}
  ∧ store_get (now res.2) "p/0/osm/1/2/3.png-lock" (store res.2) = None.
Proof. vm_compute. done. Qed.

Section lock_waiting.
Context {A : Type} `{AuthId A}.
Implicit Types (self : Cache) (layer : Layer) (coord : Coord) (auth : list A).
Implicit Types (format key body : string) (w : World).

Lemma live_before (t due : Z) (L : N) (e : Entry) :
  t < due → live_through (due + Z.of_N L) e → live (t + Z.of_N L) e = true.
Proof.
  unfold live, live_through. destruct (e_expires e) as [x|]; [|done].
  intros Ht Hx. apply bool_decide_eq_true. lia.
Qed.

Lemma run_cmds_nil (t : Z) (st : gmap string Entry) : run_cmds t [] st = st.
Proof. reflexivity. Qed.

Lemma lock_try_held n key due timeout w e :
  due - now w ≤ POLL * Z.of_nat n →
  faults w = [] → others w = [] →
  store w !! (key +:+ "-lock") = Some e →
  live_through (due + Z.of_N (latency w)) e →
  (lock_try (S n) key due timeout w).1 = Ok tt
  ∧ due ≤ now (lock_try (S n) key due timeout w).2
  ∧ ∃ fails t, trace (lock_try (S n) key due timeout w).2
               = trace w ++ fails ++ [Stored (key +:+ "-lock") t]
      ∧ due ≤ t
      ∧ Forall (λ ev, ∃ t', ev = Added (key +:+ "-lock") t' false) fails.
Proof.
  revert w. induction n as [|n IH]; intros w Hfuel Hf Ho Hst Hlive;
    destruct w as [t st k L fs os tr]; cbn [now faults others store latency] in *;
    subst fs os; rewrite lock_try_S; run; unfold POLL in *.
  - rewrite bool_decide_false by lia. run.
    split; [done|]. split; [lia|]. exists [], t.
    split; [done|]. split; [lia|]. constructor.
  - case_bool_decide as Hdue; run.
    + unfold store_add, store_get. rewrite Hst, (live_before t due L e) by done.
      run. simpl default. rewrite run_cmds_nil.
      match goal with |- context [lock_try (S n) key due timeout ?w2] =>
        destruct (IH w2) as (Hr & Hnow & fails & t' & Htr & Ht' & Hfails);
          [simpl; lia|done|done|done|done|] end.
      split; [done|]. split; [done|].
      exists (Added (key +:+ "-lock") t false :: fails), t'.
      rewrite Htr. simpl. rewrite <-(assoc_L (++)). split; [done|].
      split; [done|]. constructor; [by eexists|done].
    + split; [done|]. split; [lia|]. exists [], t.
    split; [done|]. split; [lia|]. constructor.
Qed.

(** X14: while the holder keeps the lock and nobody else acts, a waiter on a
    server that answers gets nothing before the deadline: every atomic
    create fails, the one unconditional set is issued at or after the
    deadline, and [lock] returns no earlier than [stale_lock_timeout]
    after it was called. *)
Theorem lock_waits_for_deadline (extra : nat) self layer coord auth format w e :
  let key := tile_key layer coord auth format (revision self) (key_prefix self)
               +:+ "-lock" in
  let due := now w + stale_lock_timeout layer in
  faults w = [] → others w = [] →
  store w !! key = Some e →
  live_through (due + Z.of_N (latency w)) e →
  let res := lock (lock_fuel (stale_lock_timeout layer) + extra)
               self layer coord auth format w in
  res.1 = Ok tt
  ∧ due ≤ now res.2
  ∧ ∃ fails t, trace res.2
               = trace w ++ [Opened] ++ fails ++ [Stored key t; Closed]
      ∧ due ≤ t
      ∧ Forall (λ ev, ∃ t', ev = Added key t' false) fails.
Proof.
  cbv zeta. intros Hf Ho Hst Hlive.
  destruct (lock_fuel_enough (stale_lock_timeout layer) extra) as (n & -> & Hn).
  destruct (lock_via_try (S n) self layer coord auth format w)
    as (Hr & Hnow & _ & _ & _ & _ & Htr & _).
  match type of Hr with _ = (lock_try _ ?k ?d ?T ?w0).1 =>
    destruct (lock_try_held n k d T w0 e)
      as (Hok & Hdue & fails & t & Hevs & Ht & Hfails);
      [simpl; lia|done|done|done|done|] end.
  rewrite Hr, Hnow, Hok. split; [done|]. split; [done|].
  exists fails, t. destruct Htr as [-> _]; [by rewrite Hok|].
  rewrite Hevs. simpl. by rewrite <-!(assoc_L (++)).
Qed.
End lock_waiting.

Lemma lock_waits_for_deadline_witness :
  let res := lock (lock_fuel 1000) sample_cache (sample_layer 1000) sample_coord
               ([] : list Z) "png" (sample_world held_store 5 [] []) in
  res.1 = Ok tt ∧ 1000 ≤ now res.2.
Proof.
  intros res.
  destruct (lock_waits_for_deadline 0 sample_cache (sample_layer 1000) sample_coord
              ([] : list Z) "png" (sample_world held_store 5 [] [])
              {| e_value := "locked."; e_expires := None |})
    as (Hr & Hnow & _); [reflexivity|reflexivity|reflexivity|exact I|].
  split; [exact Hr | exact Hnow].
Defined.

Section lock_frame.
Context {A : Type} `{AuthId A}.
Implicit Types (self : Cache) (layer : Layer) (coord : Coord) (auth : list A).
Implicit Types (format key body : string) (w : World).

Lemma store_add_ne (t : Z) (key key' value : string) (ttl : Z)
    (st : gmap string Entry) :
  key ≠ key' → (store_add t key value ttl st).2 !! key' = st !! key'.
Proof.
  intros Hne.
  destruct (store_add_cases t key value ttl st) as [[_ ->]|[_ ->]]; [|done].
  apply lookup_insert_ne. done.
Qed.

Lemma lock_try_frame fuel key due timeout w k :
  others w = [] → k ≠ key +:+ "-lock" →
  store (lock_try fuel key due timeout w).2 !! k = store w !! k.
Proof.
  revert w. induction fuel as [|fuel IH]; intros w Ho Hk; [done|].
  destruct w as [t st n L fs os tr]. cbn [others] in Ho. subst os.
  rewrite lock_try_S. run. case_bool_decide; run.
  - destruct fs as [|[] fs]; run; [|done|].
    all: destruct (store_add _ _ _ _ _) as [[] st'] eqn:Hsa; run.
    all: try rewrite IH by done; cbn [store]; simpl default;
      rewrite ?run_cmds_nil.
    all: by rewrite <-(store_add_ne (t + Z.of_N L) (key +:+ "-lock") k
                         "locked." timeout st), Hsa by done.
  - destruct fs as [|[] fs]; run; [|done|].
    all: by apply lookup_insert_ne.
Qed.

(** X15: [lock] writes the lock entry of its own tile and nothing else: with
    no other client at work, every other key of the server, the tile
    entry included, is after [lock] what it was before. *)
Theorem lock_touches_own_entry_only fuel self layer coord auth format w k :
  others w = [] →
  k ≠ tile_key layer coord auth format (revision self) (key_prefix self)
        +:+ "-lock" →
  store (lock fuel self layer coord auth format w).2 !! k = store w !! k.
Proof.
  intros Ho Hk.
  destruct (lock_via_try fuel self layer coord auth format w)
    as (_ & _ & -> & _).
  by rewrite lock_try_frame.
Qed.

Lemma lock_try_healthy fuel key due timeout w :
  faults w = [] →
  faults (lock_try fuel key due timeout w).2 = []
  ∧ ∀ e, (lock_try fuel key due timeout w).1 ≠ Raise e.
Proof.
  revert w. induction fuel as [|fuel IH]; intros w Hf; [done|].
  destruct w as [t st n L fs os tr]. cbn [faults] in Hf. subst fs.
  rewrite lock_try_S. run. case_bool_decide; run; [|done].
  destruct (store_add _ _ _ _ _) as [[] st']; run; [done|]. by apply IH.
Qed.

(** X17: the cycle a renderer goes through, on a server that answers: [lock],
    [save], [unlock] all return normally, the session count is what it
    was, the lock entry is gone, and a [read] before the tile expires
    returns the saved body. *)
Theorem lock_save_unlock_read (extra : nat) body self layer coord auth format w
    (d : N) :
  faults w = [] →
  or0 (cache_lifespan layer) = 0
    ∨ Z.of_N d + 2 * Z.of_N (latency w) < or0 (cache_lifespan layer) →
  let key := tile_key layer coord auth format (revision self) (key_prefix self) in
  let locked := lock (lock_fuel (stale_lock_timeout layer) + extra)
                  self layer coord auth format w in
  let saved := save body self layer coord auth format locked.2 in
  let unlocked := unlock self layer coord auth format saved.2 in
  locked.1 = Ok tt ∧ saved.1 = Ok tt ∧ unlocked.1 = Ok tt
  ∧ sessions unlocked.2 = sessions w
  ∧ store unlocked.2 !! (key +:+ "-lock") = None
  ∧ (read self layer coord auth format (elapse d unlocked.2)).1 = Ok (Some body).
Proof.
  intros Hf Hlive. cbv zeta.
  destruct (lock_fuel_enough (stale_lock_timeout layer) extra) as (n & -> & Hn).
  destruct (lock_via_try (S n) self layer coord auth format w)
    as (Hr & _ & _ & HL & Hfs & _ & Htr & _).
  match type of Hr with _ = (lock_try _ ?k ?d ?T ?w0).1 =>
    destruct (lock_try_clock n k d T w0) as (Hfuel & HL' & _); [simpl; lia|];
    destruct (lock_try_healthy (S n) k d T w0) as (Hfs' & Hraise); [done|];
    pose proof (lock_try_sessions (S n) k d T w0) as Hs;
    destruct (Htr Hfuel) as [_ Hs'];
    rewrite Hs in Hs'; rewrite Hfs' in Hfs; rewrite HL' in HL;
    destruct (lock_try (S n) k d T w0) as [[[]|e|] w1] end;
    [|by destruct (Hraise e)|done].
  simpl in Hr, HL, Hs'.
  destruct (lock (S n) self layer coord auth format w)
    as [r [t1 st1 n1 L1 fs1 os1 tr1]].
  simpl in Hr, HL, Hfs, Hs'. subst r L1 fs1 n1.
  unfold save, unlock, read. run.
  split; [done|]. split; [done|]. split; [done|]. split; [done|].
  split; [apply lookup_delete_eq|].
  rewrite store_get_delete_ne by apply lock_key_ne.
  rewrite store_get_set; [done|]. destruct Hlive; [by left|right; lia].
Qed.
End lock_frame.

Lemma lock_touches_own_entry_only_witness :
  let w := sample_world {[ "p/0/osm/1/2/3.png" :=
                             {| e_value := "tile"; e_expires := None |} ]} 5 [] [] in
  store (lock (lock_fuel 1000) sample_cache (sample_layer 1000) sample_coord
           ([] : list Z) "png" w).2 !! "p/0/osm/1/2/3.png"
  = Some {| e_value := "tile"; e_expires := None |}.
Proof.
  intros w.
  refine (lock_touches_own_entry_only (lock_fuel 1000) sample_cache
            (sample_layer 1000) sample_coord ([] : list Z) "png" w
            "p/0/osm/1/2/3.png" eq_refl _).
  vm_compute. discriminate.
Defined.

Lemma lock_save_unlock_read_witness :
  let w := sample_world held_store 5 [] [] in
  let locked := lock (lock_fuel 1000) sample_cache (sample_layer 1000) sample_coord
                  ([] : list Z) "png" w in
  let saved := save "tile" sample_cache (sample_layer 1000) sample_coord
                 ([] : list Z) "png" locked.2 in
  let unlocked := unlock sample_cache (sample_layer 1000) sample_coord
                    ([] : list Z) "png" saved.2 in
  (read sample_cache (sample_layer 1000) sample_coord ([] : list Z) "png"
     (elapse 30000 unlocked.2)).1 = Ok (Some "tile").
Proof.
  intros w locked saved unlocked.
  destruct (lock_save_unlock_read 0 "tile" sample_cache (sample_layer 1000)
              sample_coord ([] : list Z) "png" w 30000 eq_refl)
    as (_ & _ & _ & _ & _ & Hread); [right; vm_compute; reflexivity|].
  exact Hread.
Defined.

Section failures.
Context {A : Type} `{AuthId A}.
Implicit Types (self : Cache) (layer : Layer) (coord : Coord) (auth : list A).
Implicit Types (format key body : string) (w : World).

(** In a run of the loop a failed store call is the last event, and
    there is one exactly when the run raises. *)
Lemma poll_trace_failed key due r evs :
  poll_trace key due r evs →
  (r = Raise StoreError ↔ ∃ k t, Failed k t ∈ evs)
  ∧ ∀ k t, Failed k t ∈ evs → ∃ pre, evs = pre ++ [Failed k t].
Proof.
  induction 1 as [t0 ?|t0 ?|t0| |t0 r evs ? ? [IHr IHlast]].
  - split; [split; [done|]|]; intros; destruct_and?; destruct_or?; simplify_eq;
      repeat match goal with
             | Hx : ∃ _, _ |- _ => destruct Hx
             | Hx : _ ∈ [_] |- _ => apply list_elem_of_singleton in Hx
             end; done.
  - split; [split; [done|]|]; intros;
      repeat match goal with
             | Hx : ∃ _, _ |- _ => destruct Hx
             | Hx : _ ∈ [_] |- _ => apply list_elem_of_singleton in Hx
             end; done.
  - split; [split; [intros _|done]|].
    + exists key, t0. by apply list_elem_of_singleton.
    + intros k t Hin. apply list_elem_of_singleton in Hin. simplify_eq.
      by exists [].
  - split; [split; [done|]|].
    + intros (k & t & Hin). by apply elem_of_nil in Hin.
    + intros k t Hin. by apply elem_of_nil in Hin.
  - split; [split|].
    + intros Hr. destruct (proj1 IHr Hr) as (k & t & Hin).
      exists k, t. by right.
    + intros (k & t & Hin). apply IHr.
      apply elem_of_cons in Hin as [?|Hin]; [done|]. by exists k, t.
    + intros k t Hin. apply elem_of_cons in Hin as [?|Hin]; [done|].
      destruct (IHlast k t Hin) as [pre ->].
      by exists (Added key t0 false :: pre).
Qed.

(** X16: a store failure ends [lock]: it raises exactly when one of its store
    calls failed, the failed call is its last, only the disconnect
    follows, and the session count is what it was; [lock] does not try
    again. *)
Theorem lock_stops_at_failure fuel self layer coord auth format w :
  let res := lock fuel self layer coord auth format w in
  ∃ evs, trace res.2 = trace w ++ evs
    ∧ (res.1 = Raise StoreError ↔ ∃ k t, Failed k t ∈ evs)
    ∧ (∀ k t, Failed k t ∈ evs →
         sessions res.2 = sessions w
         ∧ ∃ pre, evs = pre ++ [Failed k t; Closed]).
Proof.
  cbv zeta.
  destruct (lock_via_try fuel self layer coord auth format w)
    as (Hr & _ & _ & _ & _ & _ & Htr & Hout).
  match type of Hr with _ = (lock_try ?f ?k ?d ?T ?w0).1 =>
    destruct (lock_try_trace f k d T w0) as (evs & Hevs & Hpoll);
    pose proof (lock_try_sessions f k d T w0) as Hs;
    destruct (out_of_fuel_or_not (lock_try f k d T w0).1) as [Hfuel|Hfuel] end.
  - destruct (poll_trace_failed _ _ _ _ Hpoll) as [Hiff Hlast].
    rewrite Hfuel in Hiff.
    assert (∀ k t, Failed k t ∉ evs) as Hnone.
    { intros k t Hin. by assert (OutOfFuel = Raise StoreError) by (apply Hiff; eauto). }
    exists ([Opened] ++ evs). rewrite (Hout Hfuel), Hevs, Hr, Hfuel. simpl.
    rewrite <-(assoc_L (++)). split; [done|]. split; [split; [done|]|].
    + intros (k & t & Hin). apply elem_of_cons in Hin as [?|Hin]; [done|].
      by destruct (Hnone k t).
    + intros k t Hin. apply elem_of_cons in Hin as [?|Hin]; [done|].
      by destruct (Hnone k t).
  - destruct (Htr Hfuel) as [Htr' Hs']. rewrite Hs in Hs'. simpl in Hs'.
    destruct (poll_trace_failed _ _ _ _ Hpoll) as [Hiff Hlast].
    exists ([Opened] ++ evs ++ [Closed]). rewrite Htr', Hevs, Hr. simpl.
    rewrite <-!(assoc_L (++)). split; [done|].
    assert (∀ k t, Failed k t ∈ Opened :: evs ++ [Closed] → Failed k t ∈ evs)
      as Hin_evs.
    { intros k t Hin. eapply elem_of_framed; [by right|done|done|done]. }
    split; [split|].
    + intros Hraise. destruct (proj1 Hiff Hraise) as (k & t & Hin).
      exists k, t. right. apply elem_of_app. by left.
    + intros (k & t & Hin). apply Hiff. exists k, t. by apply Hin_evs.
    + intros k t Hin. split; [done|].
      destruct (Hlast k t (Hin_evs k t Hin)) as [pre ->].
      exists (Opened :: pre). simpl. by rewrite <-(assoc_L (++)).
Qed.

(** X10: [unlock], [remove] and [save] on a server that answers: one session,
    one store call and no more, the disconnect, a normal return. *)
Theorem one_store_call body self layer coord auth format w :
  head (faults w) ≠ Some true →
  let key := tile_key layer coord auth format (revision self) (key_prefix self) in
  let unlocked := unlock self layer coord auth format w in
  let removed := remove self layer coord auth format w in
  let saved := save body self layer coord auth format w in
  (unlocked.1 = Ok tt
   ∧ trace unlocked.2 = trace w ++ [Opened; Deleted (key +:+ "-lock") (now w); Closed])
  ∧ (removed.1 = Ok tt
     ∧ trace removed.2 = trace w ++ [Opened; Deleted key (now w); Closed]
     ∧ store removed.2 = delete key (store w))
  ∧ (saved.1 = Ok tt
     ∧ trace saved.2 = trace w ++ [Opened; Stored key (now w); Closed]
     ∧ store saved.2 !! key
       = Some {| e_value := body;
                 e_expires := expiry (now saved.2) (or0 (cache_lifespan layer)) |}).
Proof.
  intros Hf. destruct w as [t st n L fs os tr]. cbv zeta.
  unfold unlock, remove, save. run.
  destruct fs as [|[] fs]; try done; run; rewrite <-!(assoc_L (++)); simpl.
  all: unfold store_set; rewrite lookup_insert_eq; by repeat split.
Qed.
End failures.

Lemma one_store_call_witness :
  let w := sample_world ∅ 5 [false; true] [] in
  trace (save "tile" sample_cache (sample_layer 15) sample_coord ([] : list Z) "png" w).2
  = [Opened; Stored "p/0/osm/1/2/3.png" 0; Closed].
Proof.
  intros w.
  destruct (one_store_call "tile" sample_cache (sample_layer 15) sample_coord
              ([] : list Z) "png" w) as (_ & _ & _ & Htr & _); [discriminate|].
  exact Htr.
Defined.

(** * Tile keys and lock keys *)

Lemma str_length_app (s1 s2 : string) :
  String.length (s1 +:+ s2) = (String.length s1 + String.length s2)%nat.
Proof. induction s1 as [|c s1 IH]; norm_app; simpl; [done|]. by rewrite IH. Qed.

(** A string that ends in [-lock] and has a [.] somewhere ends in
    [-lock] after that [.] too. *)
Lemma lock_suffix_after_dot (x f z : string) :
  x +:+ String "." f = z +:+ "-lock" → ∃ g, f = g +:+ "-lock".
Proof.
  revert z. induction x as [|a x IH]; intros [|c z]; norm_app; intros Heq.
  - discriminate.
  - injection Heq as _ Heq. by exists z.
  - injection Heq as _ Heq.
    apply (f_equal (free_of (λ ch, Ascii.eqb ch "."))) in Heq.
    rewrite free_of_app in Heq. simpl in Heq.
    by rewrite andb_false_r in Heq.
  - injection Heq as _ Heq. by apply (IH z).
Qed.

(** The key of a tile whose format does not end in [-lock] is no tile's
    lock key, under any two configurations. *)
Lemma tile_key_not_lock_key {A} `{AuthId A} (l1 l2 : Layer) (c1 c2 : Coord)
    (a1 a2 : list A) (f1 f2 : string) (rev1 rev2 : Z) (p1 p2 : string) :
  (∀ g, f1 ≠ g +:+ "-lock") →
  tile_key l1 c1 a1 f1 rev1 p1 ≠ tile_key l2 c2 a2 f2 rev2 p2 +:+ "-lock".
Proof.
  intros Hfmt Hkey. rewrite (tile_key_shape l1) in Hkey.
  unfold key_format in Hkey. rewrite <-!app_assoc_str in Hkey.
  norm_app in Hkey.
  rewrite (app_assoc_str _ "." f1) in Hkey. norm_app in Hkey.
  apply lock_suffix_after_dot in Hkey as [g Hg]. by destruct (Hfmt g).
Qed.

Section spared.
Context {A : Type} `{AuthId A}.
Implicit Types (self : Cache) (layer : Layer) (coord : Coord) (auth : list A).
Implicit Types (format key body : string) (w : World).

(** X9: [save] and [remove] of a tile whose format does not end in [-lock]
    leave the lock entry of every tile, under every configuration, as it
    was. *)
Theorem save_spares_locks body self layer coord auth format
    self' layer' coord' (auth' : list A) format' w :
  (∀ g, format ≠ g +:+ "-lock") →
  let lock_key := tile_key layer' coord' auth' format' (revision self')
                    (key_prefix self') +:+ "-lock" in
  store (save body self layer coord auth format w).2 !! lock_key
  = store w !! lock_key
  ∧ store (remove self layer coord auth format w).2 !! lock_key
    = store w !! lock_key.
Proof.
  intros Hfmt. cbv zeta.
  pose proof (tile_key_not_lock_key layer layer' coord coord' auth auth'
                format format' (revision self) (revision self')
                (key_prefix self) (key_prefix self') Hfmt) as Hne.
  destruct w as [t st n L fs os tr]. unfold save, remove. run.
  destruct fs as [|[] fs]; run; try done.
  all: unfold store_set, store_delete.
  all: by rewrite lookup_insert_ne, lookup_delete_ne.
Qed.

Lemma lock_try_latency fuel key due timeout w :
  latency (lock_try fuel key due timeout w).2 = latency w.
Proof.
  revert w. induction fuel as [|fuel IH]; intros w; [done|].
  destruct w as [t st n L fs os tr]. rewrite lock_try_S. run.
  case_bool_decide; run; destruct fs as [|[] fs]; run; try done.
  all: destruct (store_add _ _ _ _ _) as [[] st']; run; try done.
  all: by rewrite IH.
Qed.

(** X18: a lock nobody releases frees itself: once [stale_lock_timeout] has
    passed since [lock] returned, the next [lock] of the tile on a
    server that answers takes it at the first attempt. *)
Theorem abandoned_lock_expires fuel fuel' self layer coord auth format w (d : N) :
  0 < stale_lock_timeout layer →
  let key := tile_key layer coord auth format (revision self) (key_prefix self)
               +:+ "-lock" in
  let first := lock fuel self layer coord auth format w in
  first.1 = Ok tt →
  head (faults first.2) ≠ Some true →
  stale_lock_timeout layer ≤ Z.of_N d + Z.of_N (latency w) →
  let later := elapse d first.2 in
  let second := lock (S fuel') self layer coord auth format later in
  second.1 = Ok tt
  ∧ trace second.2 = trace first.2 ++ [Opened; Added key (now later) true; Closed].
Proof.
  intros Hpos. cbv zeta. intros Hok Hf Hd.
  destruct (lock_via_try fuel self layer coord auth format w)
    as (Hr & Hnow & Hst & HL & _).
  rewrite lock_try_latency in HL. cbn [latency] in HL.
  match type of Hr with _ = (lock_try ?f ?k ?dd ?T ?w0).1 =>
    pose proof (lock_try_entry f k dd T w0) as Hentry end.
  rewrite <-Hr, <-Hst, <-Hnow in Hentry. specialize (Hentry Hok). clear Hr Hnow Hst.
  destruct (lock fuel self layer coord auth format w)
    as [r [t1 st1 n1 L1 fs1 os1 tr1]].
  cbn [fst snd now store latency faults trace] in *. subst L1.
  unfold lock. run. rewrite lock_try_S. run.
  rewrite bool_decide_true by lia. run.
  unfold store_add, store_get. rewrite Hentry. unfold live, expiry.
  cbn [e_expires]. case_decide; [lia|]. rewrite bool_decide_false by lia.
  destruct fs1 as [|[] fs1]; try done; run; by rewrite <-!(assoc_L (++)).
Qed.
End spared.

Lemma save_spares_locks_witness :
  let w := sample_world held_store 5 [] [] in
  store (save "tile" sample_cache (sample_layer 15)
           {| zoom := 9; column := 9; row := 9 |} [4] "jpg" w).2
    !! "p/0/osm/1/2/3.png-lock"
  = Some {| e_value := "locked."; e_expires := None |}.
Proof.
  intros w.
  refine (proj1 (save_spares_locks "tile" sample_cache (sample_layer 15)
                   {| zoom := 9; column := 9; row := 9 |} [4] "jpg"
                   sample_cache (sample_layer 15) sample_coord ([] : list Z) "png"
                   w _)).
  intros g Heq. apply (f_equal String.length) in Heq.
  rewrite str_length_app in Heq. simpl in Heq. lia.
Defined.

(** A format that ends in [-lock] is not spared: saving such a tile
    overwrites another tile's lock entry. *)
Example save_hits_lock :
  let w := sample_world held_store 5 [] [] in
  store (save "tile" sample_cache (sample_layer 15) sample_coord ([] : list Z)
           "png-lock" w).2 !! "p/0/osm/1/2/3.png-lock"
  = Some {| e_value := "tile"; e_expires := Some 60005 |}.
Proof. vm_compute. reflexivity. Qed.

Lemma abandoned_lock_expires_witness :
  let first := lock (lock_fuel 1000) sample_cache (sample_layer 1000) sample_coord
                 ([] : list Z) "png" (sample_world ∅ 5 [] []) in
  let second := lock 1 sample_cache (sample_layer 1000) sample_coord
                  ([] : list Z) "png" (elapse 1000 first.2) in
  second.1 = Ok tt.
Proof.
  intros first second.
  destruct (abandoned_lock_expires (lock_fuel 1000) 0 sample_cache (sample_layer 1000)
              sample_coord ([] : list Z) "png" (sample_world ∅ 5 [] []) 1000)
    as [Hr _]; [simpl; lia|reflexivity|discriminate|simpl; lia|].
  exact Hr.
Defined.

Lemma tile_key_distinct_int_witness :
  tile_key (sample_layer 15) sample_coord [7; 2] "png" 0 "p"
  ≠ tile_key (sample_layer 15) sample_coord [7; 3] "png" 0 "p".
Proof.
  apply (tile_key_distinct_int sample_cache); [reflexivity|reflexivity|].
  intros (_ & _ & _ & _ & _ & Hmem).
  assert (2 ∈ [7; 3]) as Hin by (apply Hmem; right; left).
  rewrite !elem_of_cons, elem_of_nil in Hin. lia.
Defined.

(** * Sample runs of the further properties *)

Lemma read_returns_live_entry_witness :
  let w := sample_world {[ "p/0/osm/1/2/3.png" :=
                             {| e_value := "tile"; e_expires := Some 100 |} ]}
             5 [] [] in
  (read sample_cache (sample_layer 15) sample_coord ([] : list Z) "png" w).1
    = Ok (Some "tile")
  ∧ (read sample_cache (sample_layer 15) sample_coord ([] : list Z) "png"
       (elapse 95 w)).1 = Ok None.
Proof.
  intros w. split.
  - destruct (read_returns_live_entry sample_cache (sample_layer 15) sample_coord
                ([] : list Z) "png" w) as (Hr & _); [discriminate|].
    exact Hr.
  - destruct (read_returns_live_entry sample_cache (sample_layer 15) sample_coord
                ([] : list Z) "png" (elapse 95 w)) as (Hr & _); [discriminate|].
    exact Hr.
Defined.

Lemma lock_releases_session_witness :
  sessions (lock (lock_fuel 1000) sample_cache (sample_layer 1000) sample_coord
              ([] : list Z) "png" (sample_world held_store 5 [false; true] [])).2
  = 0%nat.
Proof.
  apply (lock_releases_session (lock_fuel 1000) sample_cache (sample_layer 1000)
           sample_coord ([] : list Z) "png"
           (sample_world held_store 5 [false; true] [])).
  vm_compute. discriminate.
Defined.
